(** * datamon: the augmented interval tree and the access-interception engine

    A shallow embedding of [src/libdatamon/interval_tree.hpp] and of
    [src/libdatamon/libdatamon.cpp] (memory protection, the vectored
    exception handler, the constructor and destructor of a session), with
    the properties of the registry and of the per-thread trap state machine
    stated over it. *)

From Stdlib Require Import ZArith NArith List Lia Bool.
From stdpp Require Import base gmap list.
Import ListNotations.

Set Default Proof Using "Type".
Local Open Scope Z_scope.

(** [size_t] and [uintptr_t] are 64-bit in the [_WIN64] build. *)
Definition size_t_modulus : N := 2 ^ 64.
Definition uintptr_modulus : N := 2 ^ 64.

(** ** interval_tree.hpp *)

Module IntervalTree.

Section Tree.

Context {TValue : Type}.

(** [struct Interval]; [TKey] is [uintptr_t], only compared and maximised. *)
Record Interval : Type := mkInterval {
  start : N;
  end_ : N;
  value : TValue;
  id : N
}.

(** [std::unique_ptr<Node>]: either [nullptr] or an owned [struct Node] with
    its vector of intervals, cached [height] and [max_end], and children. *)
Inductive Node : Type :=
| Null : Node
| MkNode (intervals : list Interval) (height_ : Z) (max_end_ : N)
         (left right : Node) : Node.

(** [Node(Interval i)] *)
Definition new_node (i : Interval) : Node := MkNode [i] 1 (end_ i) Null Null.

(** [node->intervals.front().start]. In a reachable state the vector of a
    node is never empty ([keyed] below holds of every reachable tree), so
    the value given for [[]] is never used. *)
Definition front_start (ivs : list Interval) : N :=
  match ivs with
  | i :: _ => start i
  | [] => 0%N
  end.

Definition front_end (ivs : list Interval) : N :=
  match ivs with
  | i :: _ => end_ i
  | [] => 0%N
  end.

(** [height] is an [int]; the heights of an AVL tree stay far below its
    range, so no wrap-around is written out for them. *)
Definition height (node : Node) : Z :=
  match node with
  | Null => 0
  | MkNode _ h _ _ _ => h
  end.

Definition get_balance (node : Node) : Z :=
  match node with
  | Null => 0
  | MkNode _ _ _ l r => height l - height r
  end.

Definition max_end (node : Node) : N :=
  match node with
  | Null => 0%N
  | MkNode _ _ m _ _ => m
  end.

(** The loop of [update_max_end] over the node's own intervals. *)
Definition own_max_end (ivs : list Interval) : N :=
  fold_left (fun m i => N.max m (end_ i)) ivs (front_end ivs).

Definition update_max_end (node : Node) : Node :=
  match node with
  | Null => Null
  | MkNode ivs h _ l r =>
      MkNode ivs h (N.max (N.max (own_max_end ivs) (max_end l)) (max_end r)) l r
  end.

(** [rotate_left]: the demoted node gets its [height] recomputed, the
    promoted one its [height] and [max_end]; the demoted node's [max_end]
    field is left as it was. *)
Definition rotate_left (node : Node) : Node :=
  match node with
  | MkNode ivs h m l (MkNode rivs rh rm rl rr) =>
      let demoted := MkNode ivs (Z.max (height l) (height rl) + 1) m l rl in
      update_max_end
        (MkNode rivs (Z.max (height demoted) (height rr) + 1) rm demoted rr)
  | _ => node
  end.

Definition rotate_right (node : Node) : Node :=
  match node with
  | MkNode ivs h m (MkNode livs lh lm ll lr) r =>
      let demoted := MkNode ivs (Z.max (height lr) (height r) + 1) m lr r in
      update_max_end
        (MkNode livs (Z.max (height ll) (height demoted) + 1) lm ll demoted)
  | _ => node
  end.

(** [node->height = 1 + max(...)] followed by [update_max_end(node)]. *)
Definition refresh (node : Node) : Node :=
  match node with
  | Null => Null
  | MkNode ivs _ m l r =>
      update_max_end (MkNode ivs (1 + Z.max (height l) (height r)) m l r)
  end.

(** [node->intervals.front().start] through a child pointer. The source
    dereferences a child only behind a balance test that makes it non-null;
    the value at [Null] is never used. *)
Definition node_key (node : Node) : N :=
  match node with
  | Null => 0%N
  | MkNode ivs _ _ _ _ => front_start ivs
  end.

Definition intervals_of (node : Node) : list Interval :=
  match node with
  | Null => []
  | MkNode ivs _ _ _ _ => ivs
  end.

(** The four rotation cases at the end of the private [insert], chosen by
    the balance factor and the inserted key. *)
Definition insert_fixup (key : N) (node : Node) : Node :=
  match node with
  | Null => Null
  | MkNode ivs h m l r =>
      let balance := height l - height r in
      if (1 <? balance) && (key <? node_key l)%N then
        rotate_right node
      else if (balance <? -1) && (node_key r <? key)%N then
        rotate_left node
      else if (1 <? balance) && (node_key l <? key)%N then
        rotate_right (MkNode ivs h m (rotate_left l) r)
      else if (balance <? -1) && (key <? node_key r)%N then
        rotate_left (MkNode ivs h m l (rotate_right r))
      else node
  end.

(** The private, recursive [insert]. *)
Fixpoint insert_node (node : Node) (i : Interval) : Node :=
  match node with
  | Null => new_node i
  | MkNode ivs h m l r =>
      let node' :=
        if (start i <? front_start ivs)%N then
          MkNode ivs h m (insert_node l i) r
        else if (front_start ivs <? start i)%N then
          MkNode ivs h m l (insert_node r i)
        else
          MkNode (ivs ++ [i]) h m l r in
      insert_fixup (start i) (refresh node')
  end.

(** [min_value_node]: follow [left] down to the leftmost node. *)
Fixpoint min_value_node (node : Node) : Node :=
  match node with
  | Null => Null
  | MkNode _ _ _ l _ =>
      match l with
      | Null => node
      | MkNode _ _ _ _ _ => min_value_node l
      end
  end.

(** The loop of [erase] over a node's vector: the first interval whose id
    matches is removed ([Some] of the shortened vector); [None] when no
    interval matches and the loop runs to its end. *)
Fixpoint remove_id (ivs : list Interval) (id0 : N) : option (list Interval) :=
  match ivs with
  | [] => None
  | i :: tl =>
      if (id i =? id0)%N then Some tl
      else option_map (cons i) (remove_id tl id0)
  end.

(** [root->intervals.front() = f] *)
Definition set_front (ivs : list Interval) (f : Interval) : list Interval :=
  match ivs with
  | _ :: tl => f :: tl
  | [] => []
  end.

(** The four rotation cases at the end of the private [erase], chosen by
    the balance factors of the node and of its child. *)
Definition erase_fixup (root : Node) : Node :=
  match root with
  | Null => Null
  | MkNode ivs h m l r =>
      let balance := get_balance root in
      if (1 <? balance) && (0 <=? get_balance l) then
        rotate_right root
      else if (1 <? balance) && (get_balance l <? 0) then
        rotate_right (MkNode ivs h m (rotate_left l) r)
      else if (balance <? -1) && (get_balance r <=? 0) then
        rotate_left root
      else if (balance <? -1) && (0 <? get_balance r) then
        rotate_left (MkNode ivs h m l (rotate_right r))
      else root
  end.

(** The private, recursive [erase]. It threads the side index
    [id_to_node_], which the source mutates in the branch that removes one
    interval out of several. *)
Fixpoint erase_node (root : Node) (key id0 : N) (idx : gmap N Interval)
  : Node * gmap N Interval :=
  match root with
  | Null => (Null, idx)
  | MkNode ivs h m l r =>
      if (key <? front_start ivs)%N then
        let '(l', idx') := erase_node l key id0 idx in
        (erase_fixup (refresh (MkNode ivs h m l' r)), idx')
      else if (front_start ivs <? key)%N then
        let '(r', idx') := erase_node r key id0 idx in
        (erase_fixup (refresh (MkNode ivs h m l r')), idx')
      else if (1 <? length ivs)%nat then
        match remove_id ivs id0 with
        | Some ivs' =>
            (erase_fixup (refresh (MkNode ivs' h m l r)), delete id0 idx)
        | None => (erase_fixup (refresh root), idx)
        end
      else
        match l, r with
        | Null, Null => (Null, idx)
        | MkNode _ _ _ _ _, Null => (erase_fixup (refresh l), idx)
        | Null, MkNode _ _ _ _ _ => (erase_fixup (refresh r), idx)
        | MkNode _ _ _ _ _, MkNode _ _ _ _ _ =>
            match intervals_of (min_value_node r) with
            | f :: _ =>
                let '(r', idx') := erase_node r (start f) id0 idx in
                (erase_fixup (refresh (MkNode (set_front ivs f) h m l r')),
                 idx')
            | [] => (root, idx)
            end
        end
  end.

(** The private, recursive [query]. *)
Fixpoint query_node (node : Node) (point : N) : list Interval :=
  match node with
  | Null => []
  | MkNode ivs _ _ l r =>
      (if (front_start ivs <=? point)%N then
         List.filter (fun i => (point <=? end_ i)%N) ivs
       else [])
      ++ match l with
         | Null => []
         | MkNode _ _ lm _ _ =>
             if (point <=? lm)%N then query_node l point else []
         end
      ++ match r with
         | Null => []
         | MkNode _ _ _ _ _ =>
             if (front_start ivs <=? point)%N then query_node r point else []
         end
  end.

(** [class IntervalTree]: the root, the id counter and the side index. *)
Record t : Type := mkTree {
  root_ : Node;
  next_id_ : N;
  id_to_node_ : gmap N Interval
}.

Definition init : t := mkTree Null 0%N ∅.

(** The public [insert]: the id field of the argument is overwritten with
    the next id; the id is returned with the new state. *)
Definition insert (tr : t) (i : Interval) : N * t :=
  let i' := mkInterval (start i) (end_ i) (value i) (next_id_ tr) in
  (next_id_ tr,
   mkTree (insert_node (root_ tr) i')
          ((next_id_ tr + 1) mod size_t_modulus)%N
          (<[next_id_ tr := i']> (id_to_node_ tr))).

(** The public [erase]. *)
Definition erase (tr : t) (id0 : N) : t :=
  match id_to_node_ tr !! id0 with
  | Some i =>
      let '(root', idx') := erase_node (root_ tr) (start i) id0 (id_to_node_ tr) in
      mkTree root' (next_id_ tr) idx'
  | None => tr
  end.

Definition query (tr : t) (point : N) : list Interval :=
  query_node (root_ tr) point.

Definition empty (tr : t) : bool :=
  match root_ tr with
  | Null => true
  | MkNode _ _ _ _ _ => false
  end.

(** *** What the data model asks of a tree *)

(** The intervals stored in a tree, in in-order. *)
Fixpoint elements (node : Node) : list Interval :=
  match node with
  | Null => []
  | MkNode ivs _ _ l r => elements l ++ ivs ++ elements r
  end.

(** The height of a tree as its shape gives it, not as the fields cache it. *)
Fixpoint tree_height (node : Node) : Z :=
  match node with
  | Null => 0
  | MkNode _ _ _ l r => 1 + Z.max (tree_height l) (tree_height r)
  end.

(** Every node's balance factor, the height of its left subtree minus the
    height of its right subtree, is -1, 0 or 1. *)
Fixpoint balanced (node : Node) : Prop :=
  match node with
  | Null => True
  | MkNode _ _ _ l r =>
      -1 <= tree_height l - tree_height r <= 1 /\ balanced l /\ balanced r
  end.

(** The same with the cached heights, which are also required to be right. *)
Fixpoint avl (node : Node) : Prop :=
  match node with
  | Null => True
  | MkNode _ h _ l r =>
      avl l /\ avl r /\ h = 1 + Z.max (height l) (height r)
      /\ -1 <= height l - height r <= 1
  end.

(** The largest end among the intervals of a tree; [0] for no interval, as
    [max_end] has it for [nullptr]. *)
Definition list_max_end (ivs : list Interval) : N :=
  fold_right (fun i m => N.max (end_ i) m) 0%N ivs.

Fixpoint true_max_end (node : Node) : N :=
  match node with
  | Null => 0%N
  | MkNode ivs _ _ l r =>
      N.max (N.max (list_max_end ivs) (true_max_end l)) (true_max_end r)
  end.

(** Every node's [max_end] field is the largest end of its subtree. *)
Fixpoint max_end_exact (node : Node) : bool :=
  match node with
  | Null => true
  | MkNode _ _ m l r =>
      (m =? true_max_end node)%N && max_end_exact l && max_end_exact r
  end.

(** Every node's [max_end] field is at least every end of its subtree. *)
Fixpoint max_end_bounds (node : Node) : Prop :=
  match node with
  | Null => True
  | MkNode ivs _ m l r =>
      (forall i, In i (elements node) -> (end_ i <= m)%N)
      /\ max_end_bounds l /\ max_end_bounds r
  end.

(** Every node holds at least one interval, and all its intervals start at
    one key. *)
Definition same_key (ivs : list Interval) : Prop :=
  ivs <> [] /\ forall i, In i ivs -> start i = front_start ivs.

Fixpoint keyed (node : Node) : Prop :=
  match node with
  | Null => True
  | MkNode ivs _ _ l r => same_key ivs /\ keyed l /\ keyed r
  end.

(** Keys strictly increase from left to right: a binary search tree on
    [start], each node holding the intervals of one key. *)
Fixpoint bst (node : Node) : Prop :=
  match node with
  | Null => True
  | MkNode ivs _ _ l r =>
      same_key ivs
      /\ (forall i, In i (elements l) -> (start i < front_start ivs)%N)
      /\ (forall i, In i (elements r) -> (front_start ivs < start i)%N)
      /\ bst l /\ bst r
  end.

(** Every node's cached [height] is the height of its subtree. *)
Fixpoint heights_exact (node : Node) : Prop :=
  match node with
  | Null => True
  | MkNode _ h _ l r =>
      h = tree_height node /\ heights_exact l /\ heights_exact r
  end.

(** Every node holds exactly one interval: no start key is shared. *)
Fixpoint singletons (node : Node) : Prop :=
  match node with
  | Null => True
  | MkNode ivs _ _ l r => length ivs = 1%nat /\ singletons l /\ singletons r
  end.

(** The number of nodes of a tree. *)
Fixpoint node_count (node : Node) : Z :=
  match node with
  | Null => 0
  | MkNode _ _ _ l r => 1 + node_count l + node_count r
  end.

(** [point] lies in the interval, both ends included. *)
Definition contains (point : N) (i : Interval) : bool :=
  (start i <=? point)%N && (point <=? end_ i)%N.

End Tree.

Arguments Interval : clear implicits.
Arguments Node : clear implicits.
Arguments t : clear implicits.

(** Sequences of registry operations. *)
Inductive op (TValue : Type) : Type :=
| Insert (i : Interval TValue)
| Erase (id0 : N).
Arguments Insert {TValue} i.
Arguments Erase {TValue} id0.

Definition step {TValue} (tr : t TValue) (o : op TValue) : t TValue :=
  match o with
  | Insert i => snd (insert tr i)
  | Erase id0 => erase tr id0
  end.

Definition run {TValue} (ops : list (op TValue)) : t TValue :=
  fold_left step ops init.

Definition is_insert {TValue} (o : op TValue) : bool :=
  match o with
  | Insert _ => true
  | Erase _ => false
  end.

(** The intervals a sequence of operations inserts, each under the id the
    counter gives it, the counter starting at [next]. *)
Fixpoint inserted_from {TValue} (next : N) (ops : list (op TValue))
  : list (Interval TValue) :=
  match ops with
  | [] => []
  | Insert i :: rest =>
      mkInterval (start i) (end_ i) (value i) next
      :: inserted_from ((next + 1) mod size_t_modulus)%N rest
  | Erase _ :: rest => inserted_from next rest
  end.

(** After [k] inserts, with [k] within the range of the id counter: the
    counter is [k], the stored ids are below [k] and pairwise distinct, and
    the side index maps the id of each stored interval to that interval. *)
Definition ids_in_order {TValue} (k : nat) (tr : t TValue) : Prop :=
  next_id_ tr = (N.of_nat k mod size_t_modulus)%N
  /\ (forall x, In x (elements (root_ tr)) -> (id x < N.of_nat k)%N)
  /\ List.NoDup (map id (elements (root_ tr)))
  /\ (forall x, In x (elements (root_ tr)) -> id_to_node_ tr !! id x = Some x).

(** After [k] inserts and any erases: the counter is [k] and the side index
    knows no id from [k] on. *)
Definition issued_below {TValue} (k : nat) (tr : t TValue) : Prop :=
  next_id_ tr = (N.of_nat k mod size_t_modulus)%N
  /\ forall id0 i, id_to_node_ tr !! id0 = Some i -> (id0 < N.of_nat k)%N.

(** The intervals a sequence of operations leaves inserted: each insert adds
    its interval under the id the counter gives it, each erase takes away
    the interval of its id. [next] is the counter, [acc] what is inserted
    so far. *)
Fixpoint live_from {TValue} (next : N) (acc : list (Interval TValue))
    (ops : list (op TValue)) : list (Interval TValue) :=
  match ops with
  | [] => acc
  | Insert i :: rest =>
      live_from ((next + 1) mod size_t_modulus)%N
        (acc ++ [mkInterval (start i) (end_ i) (value i) next]) rest
  | Erase id0 :: rest =>
      live_from next (List.filter (fun x => negb (id x =? id0)%N) acc) rest
  end.

Definition live {TValue} (ops : list (op TValue)) : list (Interval TValue) :=
  live_from 0%N [] ops.

(** A registry on which no start key was ever used twice, after [k]
    inserts: [hist] are the intervals inserted so far, [acc] those of them
    still inserted. The tree is a search tree of one-interval nodes that
    stores [acc]; the side index holds every interval of [hist] under its
    id, erased or not. *)
Definition tracks {TValue} (k : nat) (hist acc : list (Interval TValue))
    (tr : t TValue) : Prop :=
  bst (root_ tr) /\ max_end_bounds (root_ tr) /\ singletons (root_ tr)
  /\ Permutation (elements (root_ tr)) acc
  /\ incl acc hist
  /\ next_id_ tr = (N.of_nat k mod size_t_modulus)%N
  /\ (forall x, In x hist -> (id x < N.of_nat k)%N)
  /\ (forall id0 i, id_to_node_ tr !! id0 = Some i <-> In i hist /\ id i = id0)
  /\ List.NoDup (map start hist).

End IntervalTree.

(** ** libdatamon.cpp *)

Module Datamon.

(** Constants of the Windows SDK headers. *)
Definition STATUS_GUARD_PAGE_VIOLATION : N := 0x80000001.
Definition STATUS_SINGLE_STEP : N := 0x80000004.
Definition EXCEPTION_CONTINUE_EXECUTION : Z := -1.
Definition EXCEPTION_CONTINUE_SEARCH : Z := 0.
Definition PAGE_GUARD : N := 0x100.

(** The fields of [MEMORY_BASIC_INFORMATION] the code reads. *)
Record MEMORY_BASIC_INFORMATION : Type := mkMBI {
  BaseAddress : N;
  RegionSize : N;
  Protect : N
}.

(** The fields of [EXCEPTION_RECORD] and [CONTEXT] the handler reads and
    writes. *)
Record EXCEPTION_RECORD : Type := mkExceptionRecord {
  ExceptionCode : N;
  ExceptionInformation0 : N;
  ExceptionInformation1 : N
}.

Record CONTEXT : Type := mkContext {
  XIP : N;
  EFlags : N
}.

(** The operating system is an external collaborator: its memory-protection
    and handler-registration calls are an interface over an abstract state.
    [VirtualQuery] and [VirtualProtect] are [None] when the call returns
    zero; the old protection that [VirtualProtect] writes back is not read
    by the code and is left out; a handle of [0] is the null handle. *)
Class WinAPI (OS : Type) : Type := {
  VirtualQuery : OS -> N -> option MEMORY_BASIC_INFORMATION;
  VirtualProtect : OS -> N -> N -> N -> option OS;
  AddVectoredExceptionHandler : OS -> N * OS;
  RemoveVectoredExceptionHandler : OS -> N -> bool * OS
}.

(** [InterceptorFn] is a pointer to a function; calling it is recorded. *)
Definition InterceptorFn : Type := N.

Record Call : Type := mkCall {
  callee : InterceptorFn;
  accessing_address : N;
  read : bool;
  data : N
}.

(** The three [std::runtime_error]s of the file. *)
Inductive runtime_error : Type :=
| Failed_to_query_memory
| Failed_to_protect_memory
| Failed_to_create_vectored_exception_handler.

Inductive outcome (A : Type) : Type :=
| Returned (a : A)
| Threw (e : runtime_error).
Arguments Returned {A} a.
Arguments Threw {A} e.

Section Engine.

Context {OS : Type} `{WinAPI OS}.

(** The loop of [protect_memory]. [fuel] bounds the number of strides: the
    loop does not end when the system reports a region of size zero.
    The result is [None] when the fuel runs out, otherwise the state of the
    system when the function returns or throws. *)
Fixpoint protect_memory_loop (fuel : nat) (os : OS) (start end' size : N)
    (protection_modifier : N -> N) : option (outcome unit * OS) :=
  if (start <? end')%N then
    match fuel with
    | O => None
    | S fuel' =>
        match VirtualQuery os start with
        | None => Some (Threw Failed_to_query_memory, os)
        | Some mbi =>
            let old_protection := Protect mbi in
            let new_protection := protection_modifier old_protection in
            let start' := ((start + RegionSize mbi) mod uintptr_modulus)%N in
            if (old_protection =? new_protection)%N then
              protect_memory_loop fuel' os start' end' size protection_modifier
            else
              match VirtualProtect os (BaseAddress mbi)
                      (N.min size (RegionSize mbi)) new_protection with
              | None => Some (Threw Failed_to_protect_memory, os)
              | Some os' =>
                  protect_memory_loop fuel' os' start' end' size
                    protection_modifier
              end
        end
    end
  else Some (Returned tt, os).

Definition protect_memory (fuel : nat) (os : OS) (address size : N)
    (protection_modifier : N -> N) : option (outcome unit * OS) :=
  protect_memory_loop fuel os address ((address + size) mod uintptr_modulus)%N
    size protection_modifier.

(** [protect | PAGE_GUARD] *)
Definition set_guard (protect : N) : N := N.lor protect PAGE_GUARD.

(** [protect & ~PAGE_GUARD] *)
Definition clear_guard (protect : N) : N := N.ldiff protect PAGE_GUARD.

(** The globals of the file, the system they act on, and the calls made to
    interceptors so far. *)
Record World : Type := mkWorld {
  veh_refcount : N;
  veh_handle : N;
  interval_tree : IntervalTree.t InterceptorFn;
  os : OS;
  calls : list Call
}.

(** What belongs to the faulting thread: the [thread_local] variable of
    [handler] and the context record the handler may change. *)
Record ThreadState : Type := mkThread {
  last_data_address : N;
  ContextRecord : CONTEXT
}.

(** The loop over the result of the query. *)
Definition call_interceptors (interceptors : list (IntervalTree.Interval InterceptorFn))
    (accessing data_address : N) (is_read : bool) : list Call :=
  map (fun i => mkCall (IntervalTree.value i) accessing is_read data_address)
      interceptors.

(** [handler], the vectored exception handler. *)
Definition handler (fuel : nat) (w : World) (th : ThreadState)
    (er : EXCEPTION_RECORD) : option (outcome Z * World * ThreadState) :=
  if IntervalTree.empty (interval_tree w) then
    Some (Returned EXCEPTION_CONTINUE_SEARCH, w, th)
  else if (ExceptionCode er =? STATUS_GUARD_PAGE_VIOLATION)%N then
    let accessing := XIP (ContextRecord th) in
    let is_read := (ExceptionInformation0 er =? 0)%N in
    let data_address := ExceptionInformation1 er in
    let interceptors := IntervalTree.query (interval_tree w) data_address in
    let w' := mkWorld (veh_refcount w) (veh_handle w) (interval_tree w) (os w)
                (calls w ++ call_interceptors interceptors accessing
                              data_address is_read) in
    let ctx' := mkContext (XIP (ContextRecord th))
                  (N.lor (EFlags (ContextRecord th)) 0x100) in
    Some (Returned EXCEPTION_CONTINUE_EXECUTION, w', mkThread data_address ctx')
  else if negb (last_data_address th =? 0)%N
          && (ExceptionCode er =? STATUS_SINGLE_STEP)%N then
    match protect_memory fuel (os w) (last_data_address th) 1 set_guard with
    | None => None
    | Some (Threw e, os') =>
        Some (Threw e,
              mkWorld (veh_refcount w) (veh_handle w) (interval_tree w) os'
                (calls w), th)
    | Some (Returned _, os') =>
        Some (Returned EXCEPTION_CONTINUE_EXECUTION,
              mkWorld (veh_refcount w) (veh_handle w) (interval_tree w) os'
                (calls w),
              mkThread 0%N (ContextRecord th))
    end
  else Some (Returned EXCEPTION_CONTINUE_SEARCH, w, th).

(** [class Datamon]: the private members of a session. *)
Record Session : Type := mkSession {
  address_ : N;
  size_ : N;
  interceptor_ : InterceptorFn;
  interceptor_entry_id_ : N
}.

(** [Datamon::Datamon]. When it throws there is no session; the world is
    left as it was at the throw. *)
Definition ctor (fuel : nat) (w : World) (address size : N)
    (interceptor : InterceptorFn) : option (outcome Session * World) :=
  let '(handle, os1) :=
    if (veh_refcount w =? 0)%N then AddVectoredExceptionHandler (os w)
    else (veh_handle w, os w) in
  if (veh_refcount w =? 0)%N && (handle =? 0)%N then
    Some (Threw Failed_to_create_vectored_exception_handler,
          mkWorld (veh_refcount w) handle (interval_tree w) os1 (calls w))
  else
    let refcount' := ((veh_refcount w + 1) mod size_t_modulus)%N in
    let '(entry_id, tree') :=
      IntervalTree.insert (interval_tree w)
        (IntervalTree.mkInterval address
           ((address + size) mod uintptr_modulus)%N interceptor 0%N) in
    match protect_memory fuel os1 address size set_guard with
    | None => None
    | Some (Threw e, os2) =>
        Some (Threw e, mkWorld refcount' handle tree' os2 (calls w))
    | Some (Returned _, os2) =>
        Some (Returned (mkSession address size interceptor entry_id),
              mkWorld refcount' handle tree' os2 (calls w))
    end.

(** How [~Datamon] ends. The destructor is declared without an exception
    specification, so it is [noexcept]: an exception that leaves
    [protect_memory] inside it does not reach the caller, the program ends
    in [std::terminate] and no world is left to look at. *)
Inductive destruction : Type :=
| Destroyed (w : World)
| Terminated (e : runtime_error).

(** [Datamon::~Datamon]. *)
Definition dtor (fuel : nat) (w : World) (s : Session) : option destruction :=
  match protect_memory fuel (os w) (address_ s) (size_ s) clear_guard with
  | None => None
  | Some (Threw e, _) => Some (Terminated e)
  | Some (Returned _, os1) =>
      let tree' := IntervalTree.erase (interval_tree w) (interceptor_entry_id_ s) in
      let refcount' :=
        ((veh_refcount w + size_t_modulus - 1) mod size_t_modulus)%N in
      if (refcount' =? 0)%N && negb (veh_handle w =? 0)%N then
        let '(_, os2) := RemoveVectoredExceptionHandler os1 (veh_handle w) in
        Some (Destroyed (mkWorld refcount' 0%N tree' os2 (calls w)))
      else
        Some (Destroyed (mkWorld refcount' (veh_handle w) tree' os1 (calls w)))
  end.

(** What the system looks like after the guard was put back on the region
    of [address]: untouched when the region was guarded already, otherwise
    as [VirtualProtect] leaves it. *)
Definition reguarded (os : OS) (mbi : MEMORY_BASIC_INFORMATION) (os' : OS) : Prop :=
  (Protect mbi = set_guard (Protect mbi) /\ os' = os)
  \/ (Protect mbi <> set_guard (Protect mbi)
      /\ VirtualProtect os (BaseAddress mbi) (N.min 1 (RegionSize mbi))
           (set_guard (Protect mbi)) = Some os').

End Engine.

End Datamon.

(** * Concrete registries and a concrete system, for the examples below *)

Module Scenarios.

Import IntervalTree Datamon.

(** An interval as [insert] takes it ([id] is assigned by [insert]), with an
    interceptor that does not matter. *)
Definition iv (s e : N) : Interval InterceptorFn := mkInterval s e 7%N 0%N.

(** The same once stored under an id. *)
Definition stored (s e id0 : N) : Interval InterceptorFn := mkInterval s e 7%N id0.

(** The scenario of the comment in [query]: [25,35] at the root, [15,45]
    and [30,40] its children. *)
Definition dual_descent : list (op InterceptorFn) :=
  [Insert (iv 25 35); Insert (iv 15 45); Insert (iv 30 40)].

(** Three inserts with growing keys: the third rotates the tree to the left. *)
Definition growing_keys : list (op InterceptorFn) :=
  [Insert (iv 1 1); Insert (iv 2 2); Insert (iv 3 100)].

(** A root with two children whose in-order successor holds two intervals. *)
Definition shared_successor : list (op InterceptorFn) :=
  [Insert (iv 20 25); Insert (iv 10 15); Insert (iv 30 35); Insert (iv 30 40)].

(** Two intervals on one key. *)
Definition shared_key : list (op InterceptorFn) :=
  [Insert (iv 30 35); Insert (iv 30 40)].

(** A system of 4096-byte pages, each mapped page with its protection;
    every region is one page, and installing a handler gives handle [1]. *)
Definition PAGE_READWRITE : N := 0x04.

Record Pages : Type := mkPages { protection : gmap N N }.

Definition page_of (address : N) : N := (address / 4096)%N.

#[export] Instance pages_api : WinAPI Pages := {|
  VirtualQuery os address :=
    match protection os !! page_of address with
    | Some p => Some (mkMBI (page_of address * 4096)%N 4096%N p)
    | None => None
    end;
  VirtualProtect os base size new_protection :=
    match protection os !! page_of base with
    | Some _ => Some (mkPages (<[page_of base := new_protection]> (protection os)))
    | None => None
    end;
  AddVectoredExceptionHandler os := (1%N, os);
  RemoveVectoredExceptionHandler os handle := (true, os)
|}.

(** Page 5 ([0x5000..0x5fff]) is mapped read-write, nothing else is. *)
Definition one_page : Pages := mkPages {[ 5%N := PAGE_READWRITE ]}.

(** No session yet. *)
Definition fresh (os : Pages) : World :=
  mkWorld 0%N 0%N init os [].

Definition idle : ThreadState := mkThread 0%N (mkContext 0x401000%N 0x202%N).

(** A write to [address] that hits a guard page; the system has taken the
    guard off the page before the handler runs. *)
Definition guard_fault_on_write (address : N) : EXCEPTION_RECORD :=
  mkExceptionRecord STATUS_GUARD_PAGE_VIOLATION 1%N address.

Definition single_step : EXCEPTION_RECORD :=
  mkExceptionRecord STATUS_SINGLE_STEP 0%N 0%N.

(** The world once the system has taken the guard off the page of
    [address], as it does when it raises the guard fault. *)
Definition guard_consumed (w : World) (address : N) : World :=
  mkWorld (veh_refcount w) (veh_handle w) (interval_tree w)
    (mkPages (<[page_of address := PAGE_READWRITE]> (protection (os w))))
    (calls w).

(** One session watching [0x5000..0x5010]: the world [Datamon::Datamon]
    leaves behind (see [ctor_watching]). *)
Definition session0 : Session := mkSession 0x5000%N 16%N 7%N 0%N.

Definition watching : World :=
  mkWorld 1%N 1%N (run [Insert (iv 0x5000 0x5010)])
    (mkPages {[ 5%N := N.lor PAGE_READWRITE PAGE_GUARD ]}) [].

(** A thread that took a guard fault at [0x5004] and waits for its trap. *)
Definition armed : ThreadState := mkThread 0x5004%N (mkContext 0x401000%N 0x302%N).

(** A thread whose recorded address lies in a page that is not mapped. *)
Definition armed_unmapped : ThreadState :=
  mkThread 0x9000%N (mkContext 0x401000%N 0x302%N).

(** A fault that is none of the engine's: an access violation. *)
Definition access_violation : EXCEPTION_RECORD :=
  mkExceptionRecord 0xC0000005%N 1%N 0x7000%N.

(** The same pages on a system that refuses to install a handler. *)
Record NoHandlers : Type := mkNoHandlers { under : Pages }.

#[export] Instance no_handlers_api : WinAPI NoHandlers := {|
  VirtualQuery os address := VirtualQuery (under os) address;
  VirtualProtect os base size new_protection :=
    match VirtualProtect (under os) base size new_protection with
    | Some os' => Some (mkNoHandlers os')
    | None => None
    end;
  AddVectoredExceptionHandler os := (0%N, os);
  RemoveVectoredExceptionHandler os handle := (false, os)
|}.

(** Every mapped page lies in the low half of the address space. *)
Definition low_pages (os : Pages) : Prop :=
  forall pg p, protection os !! pg = Some p -> (pg < 2 ^ 40)%N.

(** Inserts on four different keys with erases among them, one of an id
    that is erased twice and one of an id that was never returned. *)
Definition mixed_ops : list (op InterceptorFn) :=
  [Insert (iv 20 25); Insert (iv 10 15); Insert (iv 30 35); Erase 0;
   Insert (iv 40 45); Erase 0; Erase 9; Erase 2].

(** A read at [address] that hits a guard page. *)
Definition guard_fault_on_read (address : N) : EXCEPTION_RECORD :=
  mkExceptionRecord STATUS_GUARD_PAGE_VIOLATION 0%N address.

(** An interval is inserted and erased, then another is inserted on the
    same start key: id 0 is stale, id 1 is live. *)
Definition stale_id : list (op InterceptorFn) :=
  [Insert (iv 1 2); Erase 0; Insert (iv 1 9)].

End Scenarios.

(** * Proof automation *)

(** Case analysis on the test of the first conditional of the goal, with
    the outcome of the test as arithmetic facts. *)
Ltac tests_to_prop :=
  repeat match goal with
  | H : _ && _ = true |- _ => apply andb_true_iff in H; destruct H
  | H : _ && _ = false |- _ =>
      apply andb_false_iff in H;
      rewrite ?Z.ltb_ge, ?Z.leb_gt, ?N.ltb_ge, ?N.leb_gt, ?N.eqb_neq in H
  | H : negb _ = true |- _ => apply negb_true_iff in H
  | H : negb _ = false |- _ => apply negb_false_iff in H
  | H : (_ <? _)%Z = true |- _ => apply Z.ltb_lt in H
  | H : (_ <? _)%Z = false |- _ => apply Z.ltb_ge in H
  | H : (_ <=? _)%Z = true |- _ => apply Z.leb_le in H
  | H : (_ <=? _)%Z = false |- _ => apply Z.leb_gt in H
  | H : (_ <? _)%N = true |- _ => apply N.ltb_lt in H
  | H : (_ <? _)%N = false |- _ => apply N.ltb_ge in H
  | H : (_ <=? _)%N = true |- _ => apply N.leb_le in H
  | H : (_ <=? _)%N = false |- _ => apply N.leb_gt in H
  | H : (_ =? _)%N = true |- _ => apply N.eqb_eq in H
  | H : (_ =? _)%N = false |- _ => apply N.eqb_neq in H
  end.

Ltac case_if :=
  match goal with
  | |- context [if ?b then _ else _] =>
      lazymatch type of b with
      | bool => destruct b eqn:?; tests_to_prop
      end
  end.

Ltac split_all := repeat match goal with |- _ /\ _ => split end.

Ltac in_tac := rewrite ?in_app_iff; cbn [In]; tauto.

(** Membership in a list that is written out. *)
Ltac concrete_in :=
  repeat match goal with
  | H : In _ _ |- _ => cbn in H
  | H : _ \/ _ |- _ => destruct H
  | H : False |- _ => destruct H
  end; subst.

(** * Properties of the interval tree *)

Module IntervalTreeFacts.

Import IntervalTree.

Section Facts.

Context {TValue : Type}.
Implicit Types (node l r : Node TValue) (i : Interval TValue).
Implicit Types (ivs : list (Interval TValue)).

(** ** The AVL shape *)

Lemma avl_height_nonneg node : avl node -> 0 <= height node.
Proof.
  induction node as [|ivs h m l IHl r IHr]; simpl; [lia|].
  intros (Hl & Hr & -> & _). specialize (IHl Hl). lia.
Qed.

Lemma avl_height_pos ivs h m l r : avl (MkNode ivs h m l r) -> 1 <= h.
Proof.
  simpl. intros (Hl & Hr & -> & _).
  pose proof (avl_height_nonneg _ Hl). lia.
Qed.

Lemma avl_height_zero node : avl node -> height node = 0 -> node = Null.
Proof.
  destruct node as [|ivs h m l r]; [reflexivity|].
  intros Ha Hh. pose proof (avl_height_pos _ _ _ _ _ Ha). simpl in Hh. lia.
Qed.

Lemma avl_tree_height node : avl node -> height node = tree_height node.
Proof.
  induction node as [|ivs h m l IHl r IHr]; simpl; [reflexivity|].
  intros (Hl & Hr & -> & _). rewrite IHl, IHr by assumption. reflexivity.
Qed.

Lemma avl_balanced node : avl node -> balanced node.
Proof.
  induction node as [|ivs h m l IHl r IHr]; simpl; [trivial|].
  intros (Hl & Hr & _ & Hb).
  rewrite <- !avl_tree_height by assumption. auto.
Qed.

(** The rebalancing at the end of [erase] restores the AVL shape of a node
    whose children are AVL trees with heights at most two apart; the height
    is that of the taller child, or one more. *)
Lemma erase_fixup_avl ivs h m l r :
  avl l -> avl r -> -2 <= height l - height r <= 2 ->
  let node' := erase_fixup (refresh (MkNode ivs h m l r)) in
  avl node' /\
  (height node' = 1 + Z.max (height l) (height r) \/
   (height node' = Z.max (height l) (height r) /\
    ~ -1 <= height l - height r <= 1)).
Proof.
  intros Hl Hr Hb. cbn [refresh update_max_end erase_fixup get_balance height].
  pose proof (avl_height_nonneg _ Hl). pose proof (avl_height_nonneg _ Hr).
  repeat case_if.
  - (* left left *)
    destruct l as [|livs lh lm ll lr]; cbn in *; [lia|].
    destruct Hl as (Hll & Hlr & -> & Hlb).
    split_all; auto; lia.
  - (* left right *)
    destruct l as [|livs lh lm ll lr]; cbn in *; [lia|].
    destruct Hl as (Hll & Hlr & -> & Hlb).
    pose proof (avl_height_nonneg _ Hll).
    destruct lr as [|lrivs lrh lrm lrl lrr]; cbn in *; [lia|].
    destruct Hlr as (Hlrl & Hlrr & -> & Hlrb).
    split_all; auto; lia.
  - (* right right *)
    destruct r as [|rivs rh rm rl rr]; cbn in *; [lia|].
    destruct Hr as (Hrl & Hrr & -> & Hrb).
    split_all; auto; lia.
  - (* right left *)
    destruct r as [|rivs rh rm rl rr]; cbn in *; [lia|].
    destruct Hr as (Hrl & Hrr & -> & Hrb).
    pose proof (avl_height_nonneg _ Hrr).
    destruct rl as [|rlivs rlh rlm rll rlr]; cbn in *; [lia|].
    destruct Hrl as (Hrll & Hrlr & -> & Hrlb).
    split_all; auto; lia.
  - cbn. split_all; auto; lia.
Qed.

Lemma refresh_avl node : avl node -> avl (refresh node) /\ height (refresh node) = height node.
Proof.
  destruct node as [|ivs h m l r]; cbn; [auto|].
  intros (Hl & Hr & -> & Hb). auto.
Qed.

Lemma erase_fixup_keeps node :
  avl node -> erase_fixup (refresh node) = refresh node.
Proof.
  destruct node as [|ivs h m l r]; cbn; [auto|].
  intros (Hl & Hr & -> & Hb). repeat case_if; solve [lia | reflexivity].
Qed.

(** The private [erase] keeps the AVL shape, whatever the keys are; the
    height stays or drops by one. *)
Lemma erase_node_avl node key id0 idx :
  avl node ->
  avl (erase_node node key id0 idx).1 /\
  (height (erase_node node key id0 idx).1 = height node \/
   height (erase_node node key id0 idx).1 = height node - 1).
Proof.
  revert key idx.
  induction node as [|ivs h m l IHl r IHr]; intros key idx Ha; cbn [erase_node].
  { cbn. auto. }
  destruct Ha as (Hl & Hr & -> & Hb).
  pose proof (avl_height_nonneg _ Hl) as Hl0.
  pose proof (avl_height_nonneg _ Hr) as Hr0.
  repeat case_if.
  - (* into the left subtree *)
    specialize (IHl key idx Hl).
    destruct (erase_node l key id0 idx) as [l' idx']; cbn [fst] in *.
    destruct IHl as (Hl' & Hh).
    destruct (erase_fixup_avl ivs (1 + Z.max (height l) (height r)) m l' r)
      as (Hn & Hhn); [assumption..|lia|].
    split; [exact Hn|]. cbn [height]. lia.
  - (* into the right subtree *)
    specialize (IHr key idx Hr).
    destruct (erase_node r key id0 idx) as [r' idx']; cbn [fst] in *.
    destruct IHr as (Hr' & Hh).
    destruct (erase_fixup_avl ivs (1 + Z.max (height l) (height r)) m l r')
      as (Hn & Hhn); [assumption..|lia|].
    split; [exact Hn|]. cbn [height]. lia.
  - (* one interval out of several *)
    destruct (remove_id ivs id0) as [ivs'|]; cbn [fst].
    + destruct (erase_fixup_avl ivs' (1 + Z.max (height l) (height r)) m l r)
        as (Hn & Hhn); [assumption..|lia|].
      split; [exact Hn|]. cbn [height]. lia.
    + destruct (erase_fixup_avl ivs (1 + Z.max (height l) (height r)) m l r)
        as (Hn & Hhn); [assumption..|lia|].
      split; [exact Hn|]. cbn [height]. lia.
  - (* the node itself *)
    destruct l as [|livs lh lm ll lr], r as [|rivs rh rm rl rr].
    + cbn in *. split; [exact I|]. lia.
    + rewrite erase_fixup_keeps by assumption.
      destruct (refresh_avl _ Hr) as (Hn & Hhn). cbn [fst].
      split; [exact Hn|]. rewrite Hhn. cbn [height] in *. lia.
    + rewrite erase_fixup_keeps by assumption.
      destruct (refresh_avl _ Hl) as (Hn & Hhn). cbn [fst].
      split; [exact Hn|]. rewrite Hhn. cbn [height] in *. lia.
    + destruct (intervals_of (min_value_node (MkNode rivs rh rm rl rr)))
        as [|f fs].
      * cbn [fst]. split; [|left; reflexivity].
        exact (conj Hl (conj Hr (conj eq_refl Hb))).
      * specialize (IHr (start f) idx Hr).
        destruct (erase_node (MkNode rivs rh rm rl rr) (start f) id0 idx)
          as [r' idx']; cbn [fst] in *.
        destruct IHr as (Hr' & Hh).
        destruct (erase_fixup_avl (set_front ivs f)
                    (1 + Z.max (height (MkNode livs lh lm ll lr))
                           (height (MkNode rivs rh rm rl rr))) m
                    (MkNode livs lh lm ll lr) r')
          as (Hn & Hhn); [assumption..|cbn [height] in *; lia|].
        split; [exact Hn|]. cbn [height] in *. lia.
Qed.

(** The private [insert] keeps the AVL shape. The rotation cases are chosen
    by comparing the inserted key with the key of a child, so the induction
    carries what a grown subtree looks like: its root key is the one the
    descent compared with, the inserted key differs from it, and the tree
    leans to the side the descent took. *)
Lemma insert_node_avl node i :
  avl node ->
  avl (insert_node node i) /\
  (height (insert_node node i) = height node \/
   (height (insert_node node i) = height node + 1 /\
    match node with
    | Null => True
    | MkNode ivs _ _ _ _ =>
        node_key (insert_node node i) = front_start ivs
        /\ start i <> front_start ivs
        /\ ((start i < front_start ivs)%N -> get_balance (insert_node node i) = 1)
        /\ ((front_start ivs < start i)%N -> get_balance (insert_node node i) = -1)
    end)).
Proof.
  induction node as [|ivs h m l IHl r IHr]; intros Ha.
  { cbn. split_all; auto; lia. }
  destruct Ha as (Hl & Hr & -> & Hb).
  pose proof (avl_height_nonneg _ Hl) as Hl0.
  pose proof (avl_height_nonneg _ Hr) as Hr0.
  cbn [insert_node]. case_if; [|case_if].
  - (* into the left subtree *)
    specialize (IHl Hl). destruct IHl as (Hl' & Hh).
    set (l' := insert_node l i) in *. clearbody l'.
    pose proof (avl_height_nonneg _ Hl') as Hl'0.
    cbn [refresh update_max_end insert_fixup height].
    repeat case_if.
    + (* left left *)
      destruct Hh as [Hh|(Hh & Hg)]; [lia|].
      destruct l as [|livs lh lm ll lr]; [cbn in *; lia|].
      destruct l' as [|livs' lh' lm' ll' lr']; [cbn in *; lia|].
      cbn in *. destruct Hg as (Hk & Hne & Hlt & Hgt).
      specialize (Hlt ltac:(lia)). destruct Hl' as (Hll' & Hlr' & -> & Hlb').
      split_all; auto; lia.
    + lia.
    + (* left right *)
      destruct Hh as [Hh|(Hh & Hg)]; [lia|].
      destruct l as [|livs lh lm ll lr]; [cbn in *; lia|].
      destruct l' as [|livs' lh' lm' ll' lr']; [cbn in *; lia|].
      cbn in *. destruct Hg as (Hk & Hne & Hlt & Hgt).
      specialize (Hgt ltac:(lia)). destruct Hl' as (Hll' & Hlr' & -> & Hlb').
      pose proof (avl_height_nonneg _ Hll').
      destruct lr' as [|lrivs lrh lrm lrl lrr]; cbn in *; [lia|].
      destruct Hlr' as (Hlrl & Hlrr & -> & Hlrb).
      split_all; auto; lia.
    + lia.
    + (* no rotation *)
      assert (height l' - height r <= 1) as Hbal.
      { destruct (Z_le_gt_dec (height l' - height r) 1) as [|Hgt2]; [assumption|].
        destruct Hh as [Hh|(Hh & Hg)]; [lia|].
        destruct l as [|livs lh lm ll lr]; [cbn in *; lia|].
        destruct Hg as (Hk & Hne & _). rewrite <- Hk in Hne. lia. }
      cbn [avl height node_key get_balance].
      split; [split_all; auto; lia|].
      destruct Hh as [Hh|(Hh & Hg)]; [left; lia|].
      destruct (Z.eq_dec (height l) (height r)) as [Heq|Hneq]; [right|left; lia].
      split_all; try lia.
  - (* into the right subtree *)
    specialize (IHr Hr). destruct IHr as (Hr' & Hh).
    set (r' := insert_node r i) in *. clearbody r'.
    pose proof (avl_height_nonneg _ Hr') as Hr'0.
    cbn [refresh update_max_end insert_fixup height].
    repeat case_if.
    + lia.
    + (* right right *)
      destruct Hh as [Hh|(Hh & Hg)]; [lia|].
      destruct r as [|rivs rh rm rl rr]; [cbn in *; lia|].
      destruct r' as [|rivs' rh' rm' rl' rr']; [cbn in *; lia|].
      cbn in *. destruct Hg as (Hk & Hne & Hlt & Hgt).
      specialize (Hgt ltac:(lia)). destruct Hr' as (Hrl' & Hrr' & -> & Hrb').
      split_all; auto; lia.
    + lia.
    + (* right left *)
      destruct Hh as [Hh|(Hh & Hg)]; [lia|].
      destruct r as [|rivs rh rm rl rr]; [cbn in *; lia|].
      destruct r' as [|rivs' rh' rm' rl' rr']; [cbn in *; lia|].
      cbn in *. destruct Hg as (Hk & Hne & Hlt & Hgt).
      specialize (Hlt ltac:(lia)). destruct Hr' as (Hrl' & Hrr' & -> & Hrb').
      pose proof (avl_height_nonneg _ Hrr').
      destruct rl' as [|rlivs rlh rlm rll rlr]; cbn in *; [lia|].
      destruct Hrl' as (Hrll & Hrlr & -> & Hrlb).
      split_all; auto; lia.
    + (* no rotation *)
      assert (-1 <= height l - height r') as Hbal.
      { destruct (Z_le_gt_dec (-1) (height l - height r')) as [|Hgt2]; [assumption|].
        destruct Hh as [Hh|(Hh & Hg)]; [lia|].
        destruct r as [|rivs rh rm rl rr]; [cbn in *; lia|].
        destruct Hg as (Hk & Hne & _). rewrite <- Hk in Hne. lia. }
      cbn [avl height node_key get_balance].
      split; [split_all; auto; lia|].
      destruct Hh as [Hh|(Hh & Hg)]; [left; lia|].
      destruct (Z.eq_dec (height l) (height r)) as [Heq|Hneq]; [right|left; lia].
      split_all; try lia.
  - (* the key is already there: the vector grows, the shape stays *)
    cbn [refresh update_max_end insert_fixup height].
    repeat case_if; try lia.
    cbn [avl height]. split; [split_all; auto; lia|left; reflexivity].
Qed.

(** Every state a sequence of operations reaches satisfies a property that
    holds of the empty registry and that each operation keeps. *)
Lemma run_invariant (P : t TValue -> Prop) :
  P init -> (forall tr o, P tr -> P (step tr o)) ->
  forall ops, P (run ops).
Proof.
  intros Hinit Hstep ops. unfold run.
  induction ops as [|o ops IH] using rev_ind; [exact Hinit|].
  rewrite fold_left_app. cbn. apply Hstep, IH.
Qed.

Lemma step_avl (tr : t TValue) o : avl (root_ tr) -> avl (root_ (step tr o)).
Proof.
  intros Ha. destruct o as [i|id0]; cbn.
  - apply insert_node_avl, Ha.
  - unfold erase. destruct (id_to_node_ tr !! id0) as [i|]; [|exact Ha].
    pose proof (erase_node_avl (root_ tr) (start i) id0 (id_to_node_ tr) Ha) as (Hn & _).
    destruct (erase_node (root_ tr) (start i) id0 (id_to_node_ tr)); exact Hn.
Qed.

Lemma run_avl (ops : list (op TValue)) : avl (root_ (run ops)).
Proof.
  apply (run_invariant (fun tr => avl (root_ tr))); [exact I|].
  intros tr o. apply step_avl.
Qed.

(** ** Rotations and rebalancing keep the stored intervals and their order *)

Lemma elements_update_max_end node :
  elements (update_max_end node) = elements node.
Proof. destruct node; reflexivity. Qed.

Lemma elements_refresh node : elements (refresh node) = elements node.
Proof. destruct node; reflexivity. Qed.

Lemma elements_rotate_left node : elements (rotate_left node) = elements node.
Proof.
  destruct node as [|ivs h m l [|rivs rh rm rl rr]]; cbn; try reflexivity.
  rewrite <- !List.app_assoc. reflexivity.
Qed.

Lemma elements_rotate_right node : elements (rotate_right node) = elements node.
Proof.
  destruct node as [|ivs h m [|livs lh lm ll lr] r]; cbn; try reflexivity.
  rewrite <- !List.app_assoc. reflexivity.
Qed.

Lemma elements_erase_fixup node : elements (erase_fixup node) = elements node.
Proof.
  destruct node as [|ivs h m l r]; [reflexivity|].
  unfold erase_fixup. repeat case_if;
    rewrite ?elements_rotate_left, ?elements_rotate_right; cbn [elements];
    rewrite ?elements_rotate_left, ?elements_rotate_right; reflexivity.
Qed.

Lemma elements_insert_fixup key node :
  elements (insert_fixup key node) = elements node.
Proof.
  destruct node as [|ivs h m l r]; [reflexivity|].
  unfold insert_fixup. repeat case_if;
    rewrite ?elements_rotate_left, ?elements_rotate_right; cbn [elements];
    rewrite ?elements_rotate_left, ?elements_rotate_right; reflexivity.
Qed.

(** ** Rotations and rebalancing keep the invariants of the data model *)

Lemma same_key_front ivs :
  same_key ivs -> exists f, In f ivs /\ start f = front_start ivs.
Proof.
  intros (Hne & _). destruct ivs as [|f tl]; [contradiction|].
  exists f. split; [left|]; reflexivity.
Qed.

Lemma keyed_update_max_end node : keyed node -> keyed (update_max_end node).
Proof. destruct node; cbn; auto. Qed.

Lemma keyed_refresh node : keyed node -> keyed (refresh node).
Proof. destruct node; cbn; auto. Qed.

Lemma keyed_rotate_left node : keyed node -> keyed (rotate_left node).
Proof.
  destruct node as [|ivs h m l [|rivs rh rm rl rr]]; cbn; tauto.
Qed.

Lemma keyed_rotate_right node : keyed node -> keyed (rotate_right node).
Proof.
  destruct node as [|ivs h m [|livs lh lm ll lr] r]; cbn; tauto.
Qed.

Lemma keyed_erase_fixup node : keyed node -> keyed (erase_fixup node).
Proof.
  destruct node as [|ivs h m l r]; [auto|].
  intros Hk. pose proof Hk as (Hs & Hl & Hr).
  unfold erase_fixup. repeat case_if;
    auto using keyed_rotate_left, keyed_rotate_right;
    apply keyed_rotate_left || apply keyed_rotate_right;
    cbn; auto using keyed_rotate_left, keyed_rotate_right.
Qed.

Lemma keyed_insert_fixup key node : keyed node -> keyed (insert_fixup key node).
Proof.
  destruct node as [|ivs h m l r]; [auto|].
  intros Hk. pose proof Hk as (Hs & Hl & Hr).
  unfold insert_fixup. repeat case_if;
    auto using keyed_rotate_left, keyed_rotate_right;
    apply keyed_rotate_left || apply keyed_rotate_right;
    cbn; auto using keyed_rotate_left, keyed_rotate_right.
Qed.

Lemma bst_keyed node : bst node -> keyed node.
Proof.
  induction node as [|ivs h m l IHl r IHr]; cbn; [auto|]. tauto.
Qed.

Lemma bst_fields ivs h m h' m' l r :
  bst (MkNode ivs h m l r) -> bst (MkNode ivs h' m' l r).
Proof. cbn. auto. Qed.

Lemma bst_refresh node : bst node -> bst (refresh node).
Proof. destruct node; cbn; auto. Qed.

Lemma bst_rotate_left node : bst node -> bst (rotate_left node).
Proof.
  destruct node as [|ivs h m l [|rivs rh rm rl rr]]; cbn; auto.
  intros (Hk & Hlt & Hgt & Hl & Hrk & Hrlt & Hrgt & Hrl & Hrr).
  destruct (same_key_front _ Hrk) as (f & Hf & Hfs).
  assert (front_start ivs < front_start rivs)%N as Hkk.
  { rewrite <- Hfs. apply Hgt. in_tac. }
  split_all; auto.
  - intros x Hx. rewrite !in_app_iff in Hx. destruct Hx as [Hx|[Hx|Hx]].
    + specialize (Hlt x Hx). lia.
    + rewrite (proj2 Hk x Hx). exact Hkk.
    + apply Hrlt, Hx.
  - intros x Hx. apply Hgt. in_tac.
Qed.

Lemma bst_rotate_right node : bst node -> bst (rotate_right node).
Proof.
  destruct node as [|ivs h m [|livs lh lm ll lr] r]; cbn; auto.
  intros (Hk & Hlt & Hgt & (Hlk & Hllt & Hlgt & Hll & Hlr) & Hr).
  destruct (same_key_front _ Hlk) as (f & Hf & Hfs).
  assert (front_start livs < front_start ivs)%N as Hkk.
  { rewrite <- Hfs. apply Hlt. in_tac. }
  split_all; auto.
  - intros x Hx. rewrite !in_app_iff in Hx. destruct Hx as [Hx|[Hx|Hx]].
    + apply Hlgt, Hx.
    + rewrite (proj2 Hk x Hx). exact Hkk.
    + specialize (Hgt x Hx). lia.
  - intros x Hx. apply Hlt. in_tac.
Qed.

Lemma bst_erase_fixup node : bst node -> bst (erase_fixup node).
Proof.
  destruct node as [|ivs h m l r]; [auto|].
  intros Hb. pose proof Hb as (Hs & Hlt & Hgt & Hl & Hr).
  unfold erase_fixup. repeat case_if;
    auto using bst_rotate_left, bst_rotate_right;
    apply bst_rotate_left || apply bst_rotate_right;
    cbn [bst]; rewrite ?elements_rotate_left, ?elements_rotate_right;
    split_all; auto using bst_rotate_left, bst_rotate_right.
Qed.

Lemma bst_insert_fixup key node : bst node -> bst (insert_fixup key node).
Proof.
  destruct node as [|ivs h m l r]; [auto|].
  intros Hb. pose proof Hb as (Hs & Hlt & Hgt & Hl & Hr).
  unfold insert_fixup. repeat case_if;
    auto using bst_rotate_left, bst_rotate_right;
    apply bst_rotate_left || apply bst_rotate_right;
    cbn [bst]; rewrite ?elements_rotate_left, ?elements_rotate_right;
    split_all; auto using bst_rotate_left, bst_rotate_right.
Qed.

Lemma fold_max_end_ge ivs (acc : N) :
  (acc <= fold_left (fun m i => N.max m (end_ i)) ivs acc)%N.
Proof.
  revert acc. induction ivs as [|i tl IH]; intros acc; cbn; [lia|].
  specialize (IH (N.max acc (end_ i))). lia.
Qed.

Lemma fold_max_end_bound ivs (acc : N) i :
  In i ivs -> (end_ i <= fold_left (fun m i => N.max m (end_ i)) ivs acc)%N.
Proof.
  revert acc. induction ivs as [|j tl IH]; intros acc; cbn; [tauto|].
  intros [->|Hin]; [|apply IH, Hin].
  pose proof (fold_max_end_ge tl (N.max acc (end_ i))). lia.
Qed.

Lemma own_max_end_bound ivs i : In i ivs -> (end_ i <= own_max_end ivs)%N.
Proof. apply fold_max_end_bound. Qed.

Lemma max_end_bounds_root node i :
  max_end_bounds node -> In i (elements node) -> (end_ i <= max_end node)%N.
Proof. destruct node; cbn; [tauto|]. intros (Hm & _). apply Hm. Qed.

Lemma max_end_bounds_update ivs h m l r :
  max_end_bounds l -> max_end_bounds r ->
  max_end_bounds (update_max_end (MkNode ivs h m l r)).
Proof.
  intros Hl Hr. cbn. split_all; auto.
  intros x Hx. rewrite !in_app_iff in Hx. destruct Hx as [Hx|[Hx|Hx]].
  - pose proof (max_end_bounds_root _ _ Hl Hx). lia.
  - pose proof (own_max_end_bound _ _ Hx). lia.
  - pose proof (max_end_bounds_root _ _ Hr Hx). lia.
Qed.

Lemma max_end_bounds_refresh ivs h m l r :
  max_end_bounds l -> max_end_bounds r ->
  max_end_bounds (refresh (MkNode ivs h m l r)).
Proof. intros Hl Hr. unfold refresh. apply max_end_bounds_update; assumption. Qed.

(** A rotation leaves the [max_end] of the demoted node as it was: it stays
    a bound, of a subtree that has become smaller. *)
Lemma max_end_bounds_rotate_left node :
  max_end_bounds node -> max_end_bounds (rotate_left node).
Proof.
  destruct node as [|ivs h m l [|rivs rh rm rl rr]]; auto.
  intros (Hm & Hl & Hrm & Hrl & Hrr). unfold rotate_left.
  apply max_end_bounds_update; [|assumption].
  cbn [max_end_bounds]. split_all; auto.
  intros x Hx. apply Hm. revert Hx. cbn. in_tac.
Qed.

Lemma max_end_bounds_rotate_right node :
  max_end_bounds node -> max_end_bounds (rotate_right node).
Proof.
  destruct node as [|ivs h m [|livs lh lm ll lr] r]; auto.
  intros (Hm & (Hlm & Hll & Hlr) & Hr). unfold rotate_right.
  apply max_end_bounds_update; [assumption|].
  cbn [max_end_bounds]. split_all; auto.
  intros x Hx. apply Hm. revert Hx. cbn. in_tac.
Qed.

Lemma max_end_bounds_erase_fixup node :
  max_end_bounds node -> max_end_bounds (erase_fixup node).
Proof.
  destruct node as [|ivs h m l r]; [auto|].
  intros Hb. pose proof Hb as (Hm & Hl & Hr).
  unfold erase_fixup. repeat case_if;
    auto using max_end_bounds_rotate_left, max_end_bounds_rotate_right;
    apply max_end_bounds_rotate_left || apply max_end_bounds_rotate_right;
    cbn [max_end_bounds elements];
    rewrite ?elements_rotate_left, ?elements_rotate_right;
    split_all; auto using max_end_bounds_rotate_left, max_end_bounds_rotate_right.
Qed.

Lemma max_end_bounds_insert_fixup key node :
  max_end_bounds node -> max_end_bounds (insert_fixup key node).
Proof.
  destruct node as [|ivs h m l r]; [auto|].
  intros Hb. pose proof Hb as (Hm & Hl & Hr).
  unfold insert_fixup. repeat case_if;
    auto using max_end_bounds_rotate_left, max_end_bounds_rotate_right;
    apply max_end_bounds_rotate_left || apply max_end_bounds_rotate_right;
    cbn [max_end_bounds elements];
    rewrite ?elements_rotate_left, ?elements_rotate_right;
    split_all; auto using max_end_bounds_rotate_left, max_end_bounds_rotate_right.
Qed.

(** ** Point queries *)

Lemma filter_none {A} (f : A -> bool) (xs : list A) :
  (forall x, In x xs -> f x = false) -> List.filter f xs = [].
Proof.
  induction xs as [|x tl IH]; intros Hf; cbn; [reflexivity|].
  rewrite (Hf x) by (left; reflexivity).
  apply IH. intros y Hy. apply Hf. right. exact Hy.
Qed.

Lemma filter_same {A} (f g : A -> bool) (xs : list A) :
  (forall x, In x xs -> f x = g x) -> List.filter f xs = List.filter g xs.
Proof.
  induction xs as [|x tl IH]; intros Hf; cbn; [reflexivity|].
  rewrite (Hf x) by (left; reflexivity).
  rewrite IH; [reflexivity|]. intros y Hy. apply Hf. right. exact Hy.
Qed.

(** What [query] collects at a node are the node's intervals that hold the
    point. *)
Lemma query_own ivs p :
  same_key ivs ->
  (if (front_start ivs <=? p)%N
   then List.filter (fun i => (p <=? end_ i)%N) ivs else [])
  = List.filter (contains p) ivs.
Proof.
  intros (_ & Hk). destruct (front_start ivs <=? p)%N eqn:Hle.
  - apply filter_same. intros x Hx. unfold contains.
    rewrite (Hk x Hx), Hle. reflexivity.
  - symmetry. apply filter_none. intros x Hx. unfold contains.
    rewrite (Hk x Hx), Hle. reflexivity.
Qed.

(** On a search tree whose [max_end] fields bound their subtrees, [query]
    returns the stored intervals that hold the point, each as often as it
    is stored. *)
Lemma query_node_exact node p :
  bst node -> max_end_bounds node ->
  Permutation (query_node node p) (List.filter (contains p) (elements node)).
Proof.
  induction node as [|ivs h m l IHl r IHr]; intros Hb Hm; [reflexivity|].
  destruct Hb as (Hs & Hlt & Hgt & Hbl & Hbr).
  destruct Hm as (_ & Hml & Hmr).
  specialize (IHl Hbl Hml). specialize (IHr Hbr Hmr).
  cbn [query_node elements]. rewrite !List.filter_app, query_own by assumption.
  rewrite Permutation_app_swap_app.
  apply Permutation_app; [|apply Permutation_app; [reflexivity|]].
  - destruct l as [|livs lh lm ll lr]; [reflexivity|].
    case_if; [exact IHl|].
    rewrite filter_none; [reflexivity|].
    intros x Hx. unfold contains.
    pose proof (max_end_bounds_root _ _ Hml Hx) as Hle. cbn in Hle.
    destruct (N.leb_spec p (end_ x)); [lia|]. apply andb_false_r.
  - destruct r as [|rivs rh rm rl rr]; [reflexivity|].
    case_if; [exact IHr|].
    rewrite filter_none; [reflexivity|].
    intros x Hx. unfold contains. specialize (Hgt x Hx).
    destruct (N.leb_spec (start x) p); [lia|]. reflexivity.
Qed.

(** Without any order on the keys, [query] still returns only stored
    intervals that hold the point. *)
Lemma query_node_sound node p x :
  keyed node -> In x (query_node node p) ->
  In x (elements node) /\ contains p x = true.
Proof.
  induction node as [|ivs h m l IHl r IHr]; intros Hk Hx; [destruct Hx|].
  destruct Hk as (Hs & Hkl & Hkr).
  cbn [query_node elements] in *. rewrite query_own in Hx by assumption.
  rewrite !in_app_iff in *. destruct Hx as [Hx|[Hx|Hx]].
  - apply List.filter_In in Hx. tauto.
  - destruct l as [|livs lh lm ll lr]; [destruct Hx|].
    destruct (p <=? lm)%N; [|destruct Hx]. destruct (IHl Hkl Hx). tauto.
  - destruct r as [|rivs rh rm rl rr]; [destruct Hx|].
    destruct (front_start ivs <=? p)%N; [|destruct Hx].
    destruct (IHr Hkr Hx). tauto.
Qed.

(** ** The private [insert] *)

Lemma elements_insert_node node i :
  Permutation (elements (insert_node node i)) (i :: elements node).
Proof.
  induction node as [|ivs h m l IHl r IHr]; [reflexivity|].
  cbn [insert_node]. rewrite elements_insert_fixup.
  repeat case_if; rewrite elements_refresh; cbn [elements].
  - rewrite IHl. reflexivity.
  - rewrite IHr. rewrite <- !Permutation_middle. reflexivity.
  - rewrite <- List.app_assoc. cbn [app].
    rewrite <- !Permutation_middle. reflexivity.
Qed.

Lemma in_elements_insert_node node i x :
  In x (elements (insert_node node i)) <-> x = i \/ In x (elements node).
Proof.
  split; intros Hx.
  - apply (Permutation_in _ (elements_insert_node node i)) in Hx.
    destruct Hx; auto.
  - apply (Permutation_in _ (Permutation_sym (elements_insert_node node i))).
    destruct Hx; [left|right]; auto.
Qed.

Lemma same_key_app ivs i :
  same_key ivs -> start i = front_start ivs -> same_key (ivs ++ [i]).
Proof.
  intros (Hne & Hk) Hi. destruct ivs as [|f tl]; [contradiction|].
  split; [discriminate|]. cbn [app front_start] in *.
  intros x [->|Hx]; [reflexivity|].
  apply in_app_iff in Hx. destruct Hx as [Hx|[->|[]]]; [|exact Hi].
  apply Hk. right. exact Hx.
Qed.

Lemma same_key_singleton i : same_key [i].
Proof. split; [discriminate|]. intros x [->|[]]. reflexivity. Qed.

Lemma front_start_app ivs i :
  ivs <> [] -> front_start (ivs ++ [i]) = front_start ivs.
Proof. destruct ivs; [contradiction|reflexivity]. Qed.

Lemma keyed_insert_node node i : keyed node -> keyed (insert_node node i).
Proof.
  induction node as [|ivs h m l IHl r IHr]; intros Hk.
  { cbn. auto using same_key_singleton. }
  destruct Hk as (Hs & Hl & Hr).
  cbn [insert_node]. apply keyed_insert_fixup.
  repeat case_if; apply keyed_refresh; cbn [keyed]; split_all; auto.
  apply same_key_app; [assumption|lia].
Qed.

Lemma bst_insert_node node i : bst node -> bst (insert_node node i).
Proof.
  induction node as [|ivs h m l IHl r IHr]; intros Hb.
  { cbn. split_all; auto using same_key_singleton; tauto. }
  destruct Hb as (Hs & Hlt & Hgt & Hl & Hr).
  cbn [insert_node]. apply bst_insert_fixup.
  repeat case_if; apply bst_refresh; cbn [bst]; split_all; auto.
  - intros x Hx. apply in_elements_insert_node in Hx.
    destruct Hx as [->|Hx]; [assumption|auto].
  - intros x Hx. apply in_elements_insert_node in Hx.
    destruct Hx as [->|Hx]; [assumption|auto].
  - apply same_key_app; [assumption|lia].
  - rewrite front_start_app by apply Hs. assumption.
  - rewrite front_start_app by apply Hs. assumption.
Qed.

Lemma max_end_bounds_insert_node node i :
  max_end_bounds node -> max_end_bounds (insert_node node i).
Proof.
  induction node as [|ivs h m l IHl r IHr]; intros Hb.
  { cbn. split_all; auto. intros x [->|[]]. lia. }
  destruct Hb as (Hm & Hl & Hr).
  cbn [insert_node]. apply max_end_bounds_insert_fixup.
  repeat case_if; apply max_end_bounds_refresh; auto.
Qed.

(** ** The private [erase] *)

Lemma remove_id_some ivs id0 ivs' :
  remove_id ivs id0 = Some ivs' ->
  exists pre x post,
    ivs = pre ++ x :: post /\ ivs' = pre ++ post /\ id x = id0
    /\ forall y, In y pre -> id y <> id0.
Proof.
  revert ivs'. induction ivs as [|i tl IH]; intros ivs' Hr; [discriminate|].
  cbn in Hr. destruct (N.eqb_spec (id i) id0) as [Heq|Hne].
  - injection Hr as <-. exists [], i, tl. cbn. tauto.
  - destruct (remove_id tl id0) as [tl'|]; [|discriminate].
    injection Hr as <-.
    destruct (IH tl' eq_refl) as (pre & x & post & -> & -> & Hid & Hpre).
    exists (i :: pre), x, post. split_all; auto.
    intros y [->|Hy]; auto.
Qed.

Lemma remove_id_none ivs id0 :
  remove_id ivs id0 = None -> forall y, In y ivs -> id y <> id0.
Proof.
  induction ivs as [|i tl IH]; intros Hr y Hy; [destruct Hy|].
  cbn in Hr. destruct (N.eqb_spec (id i) id0) as [Heq|Hne]; [discriminate|].
  destruct (remove_id tl id0) as [tl'|]; [discriminate|].
  destruct Hy as [->|Hy]; auto.
Qed.

Lemma same_key_sub ivs ivs' :
  same_key ivs -> ivs' <> [] -> (forall y, In y ivs' -> In y ivs) ->
  same_key ivs' /\ front_start ivs' = front_start ivs.
Proof.
  intros (Hne & Hk) Hne' Hsub.
  assert (front_start ivs' = front_start ivs) as Hf.
  { destruct ivs' as [|f tl]; [contradiction|]. cbn.
    apply Hk, Hsub. left. reflexivity. }
  split; [|exact Hf]. split; [exact Hne'|].
  intros y Hy. rewrite Hf. apply Hk, Hsub, Hy.
Qed.

Lemma same_key_remove_id ivs id0 ivs' :
  same_key ivs -> (1 < length ivs)%nat -> remove_id ivs id0 = Some ivs' ->
  same_key ivs' /\ front_start ivs' = front_start ivs.
Proof.
  intros Hs Hlen Hr.
  destruct (remove_id_some _ _ _ Hr) as (pre & x & post & -> & -> & _).
  apply (same_key_sub _ _ Hs).
  - rewrite length_app in Hlen. cbn in Hlen.
    destruct pre, post; cbn in *; try discriminate; lia.
  - intros y. rewrite !in_app_iff. cbn. tauto.
Qed.

Lemma same_key_set_front ivs f :
  ivs <> [] -> (1 <? length ivs)%nat = false -> set_front ivs f = [f].
Proof.
  intros Hne Hlen. apply Nat.ltb_ge in Hlen.
  destruct ivs as [|x [|y tl]]; cbn in *; [contradiction|reflexivity|lia].
Qed.

Lemma keyed_erase_node node key id0 idx :
  keyed node -> keyed (erase_node node key id0 idx).1.
Proof.
  revert key idx.
  induction node as [|ivs h m l IHl r IHr]; intros key idx Hk; [exact I|].
  destruct Hk as (Hs & Hl & Hr). cbn [erase_node].
  destruct (key <? front_start ivs)%N; [|destruct (front_start ivs <? key)%N;
    [|destruct (1 <? length ivs)%nat eqn:Hlen]].
  - specialize (IHl key idx Hl).
    destruct (erase_node l key id0 idx) as [l' idx']; cbn [fst] in *.
    apply keyed_erase_fixup, keyed_refresh. cbn. auto.
  - specialize (IHr key idx Hr).
    destruct (erase_node r key id0 idx) as [r' idx']; cbn [fst] in *.
    apply keyed_erase_fixup, keyed_refresh. cbn. auto.
  - destruct (remove_id ivs id0) as [ivs'|] eqn:Hrem; cbn [fst];
      apply keyed_erase_fixup, keyed_refresh; cbn [keyed]; split_all; auto.
    apply Nat.ltb_lt in Hlen.
    apply (same_key_remove_id _ _ _ Hs Hlen Hrem).
  - destruct l as [|livs lh lm ll lr], r as [|rivs rh rm rl rr]; cbn [fst].
    + exact I.
    + apply keyed_erase_fixup, keyed_refresh, Hr.
    + apply keyed_erase_fixup, keyed_refresh, Hl.
    + destruct (intervals_of (min_value_node (MkNode rivs rh rm rl rr)))
        as [|f fs].
      * cbn [fst keyed]. auto.
      * specialize (IHr (start f) idx Hr).
        destruct (erase_node (MkNode rivs rh rm rl rr) (start f) id0 idx)
          as [r' idx']; cbn [fst] in *.
        apply keyed_erase_fixup, keyed_refresh.
        split; [|split; assumption].
        rewrite same_key_set_front by (assumption || apply Hs).
        apply same_key_singleton.
Qed.

Lemma step_keyed (tr : t TValue) o : keyed (root_ tr) -> keyed (root_ (step tr o)).
Proof.
  intros Hk. destruct o as [i|id0]; cbn.
  - apply keyed_insert_node, Hk.
  - unfold erase. destruct (id_to_node_ tr !! id0) as [i|]; [|exact Hk].
    pose proof (keyed_erase_node (root_ tr) (start i) id0 (id_to_node_ tr) Hk) as Hn.
    destruct (erase_node (root_ tr) (start i) id0 (id_to_node_ tr)); exact Hn.
Qed.

(** In every reachable state each node holds at least one interval and all
    its intervals start at the node's key: [front()] is never taken of an
    empty vector. *)
Lemma run_keyed (ops : list (op TValue)) : keyed (root_ (run ops)).
Proof.
  apply (run_invariant (fun tr => keyed (root_ tr))); [exact I|].
  intros tr o. apply step_keyed.
Qed.

Lemma two_in_length ivs i0 j :
  In i0 ivs -> In j ivs -> i0 <> j -> (1 < length ivs)%nat.
Proof.
  destruct ivs as [|a [|b tl]]; cbn; [tauto| |lia].
  intros [<-|[]] [<-|[]] Hne. contradiction.
Qed.

(** Erasing an id whose key is shared. On a search tree the descent ends at
    the node of the key, which holds several intervals; the one with the id
    leaves the node's vector, the side-index entry is dropped, and nothing
    else changes in the stored intervals or their order. *)
Lemma erase_node_shared node key id0 idx i0 j :
  bst node -> max_end_bounds node ->
  In i0 (elements node) -> id i0 = id0 -> start i0 = key ->
  In j (elements node) -> start j = key -> id j <> id0 ->
  exists node' pre x post,
    erase_node node key id0 idx = (node', delete id0 idx)
    /\ bst node' /\ max_end_bounds node'
    /\ elements node = pre ++ x :: post
    /\ elements node' = pre ++ post
    /\ id x = id0 /\ start x = key.
Proof.
  intros Hb Hm Hi0 Hid0 Hs0 Hj Hsj Hidj. revert Hb Hm Hi0 Hj.
  induction node as [|ivs h m l IHl r IHr]; intros Hb Hm Hi0 Hj; [destruct Hi0|].
  destruct Hb as (Hs & Hlt & Hgt & Hbl & Hbr).
  destruct Hm as (Hmr & Hml & Hmrr).
  cbn [elements] in Hi0, Hj. rewrite !in_app_iff in Hi0, Hj.
  assert (forall y, In y ivs -> start y = front_start ivs) as Hk by apply Hs.
  cbn [erase_node].
  destruct (N.ltb_spec key (front_start ivs)) as [Hlt1|Hge1];
    [|destruct (N.ltb_spec (front_start ivs) key) as [Hlt2|Hge2]].
  - (* the key is in the left subtree *)
    assert (In i0 (elements l)) as Hi0l.
    { destruct Hi0 as [H0|[H0|H0]]; [exact H0| |].
      - specialize (Hk _ H0). lia.
      - specialize (Hgt _ H0). lia. }
    assert (In j (elements l)) as Hjl.
    { destruct Hj as [H0|[H0|H0]]; [exact H0| |].
      - specialize (Hk _ H0). lia.
      - specialize (Hgt _ H0). lia. }
    destruct (IHl Hbl Hml Hi0l Hjl)
      as (l' & pre & x & post & -> & Hbl' & Hml' & Hel & Hel' & Hx & Hxs).
    exists (erase_fixup (refresh (MkNode ivs h m l' r))), pre, x,
      (post ++ ivs ++ elements r).
    split_all; auto.
    + apply bst_erase_fixup, bst_refresh. cbn [bst]. split_all; auto.
      intros y Hy. apply Hlt. rewrite Hel. rewrite Hel' in Hy.
      revert Hy. in_tac.
    + apply max_end_bounds_erase_fixup, max_end_bounds_refresh; assumption.
    + cbn [elements]. rewrite Hel, <- List.app_assoc. reflexivity.
    + rewrite elements_erase_fixup, elements_refresh. cbn [elements].
      rewrite Hel', <- List.app_assoc. reflexivity.
  - (* the key is in the right subtree *)
    assert (In i0 (elements r)) as Hi0r.
    { destruct Hi0 as [H0|[H0|H0]]; [| |exact H0].
      - specialize (Hlt _ H0). lia.
      - specialize (Hk _ H0). lia. }
    assert (In j (elements r)) as Hjr.
    { destruct Hj as [H0|[H0|H0]]; [| |exact H0].
      - specialize (Hlt _ H0). lia.
      - specialize (Hk _ H0). lia. }
    destruct (IHr Hbr Hmrr Hi0r Hjr)
      as (r' & pre & x & post & -> & Hbr' & Hmr' & Her & Her' & Hx & Hxs).
    exists (erase_fixup (refresh (MkNode ivs h m l r'))),
      (elements l ++ ivs ++ pre), x, post.
    split_all; auto.
    + apply bst_erase_fixup, bst_refresh. cbn [bst]. split_all; auto.
      intros y Hy. apply Hgt. rewrite Her. rewrite Her' in Hy.
      revert Hy. in_tac.
    + apply max_end_bounds_erase_fixup, max_end_bounds_refresh; assumption.
    + cbn [elements]. rewrite Her, <- !List.app_assoc. reflexivity.
    + rewrite elements_erase_fixup, elements_refresh. cbn [elements].
      rewrite Her', <- !List.app_assoc. reflexivity.
  - (* the node of the key *)
    assert (In i0 ivs) as Hi0n.
    { destruct Hi0 as [H0|[H0|H0]]; [|exact H0|].
      - specialize (Hlt _ H0). lia.
      - specialize (Hgt _ H0). lia. }
    assert (In j ivs) as Hjn.
    { destruct Hj as [H0|[H0|H0]]; [|exact H0|].
      - specialize (Hlt _ H0). lia.
      - specialize (Hgt _ H0). lia. }
    assert (1 < length ivs)%nat as Hlen.
    { apply (two_in_length ivs i0 j); try assumption. congruence. }
    destruct (Nat.ltb_spec 1 (length ivs)) as [_|]; [|lia].
    destruct (remove_id ivs id0) as [ivs'|] eqn:Hrem.
    + destruct (same_key_remove_id _ _ _ Hs Hlen Hrem) as (Hs' & Hf').
      destruct (remove_id_some _ _ _ Hrem)
        as (pre & x & post & Hivs & Hivs' & Hx & Hpre).
      exists (erase_fixup (refresh (MkNode ivs' h m l r))),
        (elements l ++ pre), x, (post ++ elements r).
      split_all; auto.
      * apply bst_erase_fixup, bst_refresh. cbn [bst]. rewrite Hf'.
        split_all; auto.
      * apply max_end_bounds_erase_fixup, max_end_bounds_refresh; assumption.
      * cbn [elements]. rewrite Hivs, <- !List.app_assoc. reflexivity.
      * rewrite elements_erase_fixup, elements_refresh. cbn [elements].
        rewrite Hivs', <- !List.app_assoc. reflexivity.
      * assert (In x ivs) as Hxin by (rewrite Hivs; in_tac).
        specialize (Hk _ Hxin). lia.
    + exfalso. exact (remove_id_none _ _ Hrem _ Hi0n Hid0).
Qed.

Lemma nodup_id_eq (xs : list (Interval TValue)) a b :
  List.NoDup (map id xs) -> In a xs -> In b xs -> id a = id b -> a = b.
Proof.
  induction xs as [|x tl IH]; intros Hnd Ha Hb Hid; [destruct Ha|].
  cbn in Hnd. apply List.NoDup_cons_iff in Hnd. destruct Hnd as (Hx & Hnd).
  destruct Ha as [->|Ha], Hb as [->|Hb]; auto.
  - exfalso. apply Hx. rewrite Hid. apply in_map, Hb.
  - exfalso. apply Hx. rewrite <- Hid. apply in_map, Ha.
Qed.

Lemma nodup_id_middle (pre post : list (Interval TValue)) x y :
  List.NoDup (map id (pre ++ x :: post)) -> In y (pre ++ post) -> id y <> id x.
Proof.
  rewrite map_app. cbn [map]. intros Hnd Hy Heq.
  apply List.NoDup_remove_2 in Hnd. apply Hnd.
  rewrite <- map_app, <- Heq. apply in_map, Hy.
Qed.

Lemma nodup_middle_eq {A} (pre post pre' post' : list A) x :
  List.NoDup (pre ++ x :: post) -> pre ++ x :: post = pre' ++ x :: post' ->
  pre = pre' /\ post = post'.
Proof.
  revert pre'. induction pre as [|a pre IH]; intros pre' Hnd Heq.
  - destruct pre' as [|a' pre']; cbn in *.
    + injection Heq as ->. auto.
    + injection Heq as <- ->. apply List.NoDup_cons_iff in Hnd.
      exfalso. apply (proj1 Hnd). in_tac.
  - destruct pre' as [|a' pre']; cbn in *.
    + injection Heq as -> <-. apply List.NoDup_cons_iff in Hnd.
      exfalso. apply (proj1 Hnd). in_tac.
    + injection Heq as <- Heq. apply List.NoDup_cons_iff in Hnd.
      destruct (IH pre' (proj2 Hnd) Heq) as (-> & ->). auto.
Qed.

Lemma max_end_bounds_erase_node node key id0 idx :
  max_end_bounds node -> max_end_bounds (erase_node node key id0 idx).1.
Proof.
  revert key idx.
  induction node as [|ivs h m l IHl r IHr]; intros key idx Hm; [exact I|].
  pose proof Hm as (_ & Hl & Hr). cbn [erase_node].
  destruct (key <? front_start ivs)%N; [|destruct (front_start ivs <? key)%N;
    [|destruct (1 <? length ivs)%nat]].
  - specialize (IHl key idx Hl).
    destruct (erase_node l key id0 idx) as [l' idx']; cbn [fst] in *.
    apply max_end_bounds_erase_fixup, max_end_bounds_refresh; assumption.
  - specialize (IHr key idx Hr).
    destruct (erase_node r key id0 idx) as [r' idx']; cbn [fst] in *.
    apply max_end_bounds_erase_fixup, max_end_bounds_refresh; assumption.
  - destruct (remove_id ivs id0) as [ivs'|]; cbn [fst];
      apply max_end_bounds_erase_fixup, max_end_bounds_refresh; assumption.
  - destruct l as [|livs lh lm ll lr], r as [|rivs rh rm rl rr]; cbn [fst].
    + exact I.
    + destruct Hr as (_ & Hrl & Hrr).
      apply max_end_bounds_erase_fixup, max_end_bounds_refresh; assumption.
    + destruct Hl as (_ & Hll & Hlr).
      apply max_end_bounds_erase_fixup, max_end_bounds_refresh; assumption.
    + destruct (intervals_of (min_value_node (MkNode rivs rh rm rl rr)))
        as [|f fs].
      * exact Hm.
      * specialize (IHr (start f) idx Hr).
        destruct (erase_node (MkNode rivs rh rm rl rr) (start f) id0 idx)
          as [r' idx']; cbn [fst] in *.
        apply max_end_bounds_erase_fixup, max_end_bounds_refresh; assumption.
Qed.

Lemma step_max_end_bounds (tr : t TValue) o :
  max_end_bounds (root_ tr) -> max_end_bounds (root_ (step tr o)).
Proof.
  intros Hm. destruct o as [i|id0]; cbn.
  - apply max_end_bounds_insert_node, Hm.
  - unfold erase. destruct (id_to_node_ tr !! id0) as [i|]; [|exact Hm].
    pose proof (max_end_bounds_erase_node (root_ tr) (start i) id0
                  (id_to_node_ tr) Hm) as Hn.
    destruct (erase_node (root_ tr) (start i) id0 (id_to_node_ tr)); exact Hn.
Qed.

(** What the code keeps of the [max_end] invariant: in every reachable
    state each node's [max_end] is at least every end stored in its
    subtree. *)
Lemma run_max_end_bounds (ops : list (op TValue)) :
  max_end_bounds (root_ (run ops)).
Proof.
  apply (run_invariant (fun tr => max_end_bounds (root_ tr))); [exact I|].
  intros tr o. apply step_max_end_bounds.
Qed.

(** ** The public [insert] *)

Lemma insert_node_not_null node i : insert_node node i <> Null.
Proof.
  intros Hn.
  pose proof (proj2 (in_elements_insert_node node i i) (or_introl eq_refl)) as Hin.
  rewrite Hn in Hin. destruct Hin.
Qed.

(** The interval is stored under the id that [insert] returns, in the tree
    and in the side index. *)
Lemma insert_stores (tr : t TValue) i :
  let i' := mkInterval (start i) (end_ i) (value i) (next_id_ tr) in
  (insert tr i).1 = next_id_ tr
  /\ In i' (elements (root_ (insert tr i).2))
  /\ id_to_node_ (insert tr i).2 !! next_id_ tr = Some i'
  /\ empty (insert tr i).2 = false.
Proof.
  intros i'. cbn [insert fst snd root_ id_to_node_]. fold i'. split_all.
  - reflexivity.
  - apply in_elements_insert_node. left. reflexivity.
  - apply lookup_insert_eq.
  - unfold empty. cbn [root_].
    pose proof (insert_node_not_null (root_ tr) i').
    destruct (insert_node (root_ tr) i'); [contradiction|reflexivity].
Qed.

(** ** Sequences of inserts *)

Lemma filter_permutation {A} (f : A -> bool) (xs ys : list A) :
  Permutation xs ys -> Permutation (List.filter f xs) (List.filter f ys).
Proof.
  induction 1 as [|x xs ys _ IH|x y xs|xs ys zs _ IH1 _ IH2]; cbn.
  - reflexivity.
  - destruct (f x); [apply perm_skip|]; exact IH.
  - destruct (f x), (f y); try reflexivity. apply perm_swap.
  - etransitivity; eassumption.
Qed.

(** Inserts keep the search-tree order and the [max_end] bounds, and store
    each interval under its id. *)
Lemma inserts_well_formed (ops : list (op TValue)) (tr : t TValue) :
  forallb is_insert ops = true ->
  bst (root_ tr) -> max_end_bounds (root_ tr) ->
  bst (root_ (fold_left step ops tr))
  /\ max_end_bounds (root_ (fold_left step ops tr))
  /\ Permutation (elements (root_ (fold_left step ops tr)))
       (elements (root_ tr) ++ inserted_from (next_id_ tr) ops).
Proof.
  revert tr. induction ops as [|o ops IH]; intros tr Hins Hb Hm.
  { cbn. rewrite app_nil_r. auto. }
  destruct o as [i|id0]; [|discriminate]. cbn in Hins.
  cbn [fold_left step inserted_from].
  destruct (IH (insert tr i).2 Hins) as (Hb' & Hm' & Hp).
  - apply bst_insert_node, Hb.
  - apply max_end_bounds_insert_node, Hm.
  - split_all; [exact Hb'|exact Hm'|].
    rewrite Hp. cbn [insert snd root_ next_id_].
    rewrite elements_insert_node. rewrite <- Permutation_middle. reflexivity.
Qed.

(** On a registry built by inserts alone, in any order and whatever shape
    the rotations give the tree, [query] returns the inserted intervals that
    hold the point, each once. *)
Theorem query_after_inserts (ops : list (op TValue)) p :
  forallb is_insert ops = true ->
  Permutation (query (run ops) p)
    (List.filter (contains p) (inserted_from 0 ops)).
Proof.
  intros Hins.
  destruct (inserts_well_formed ops init Hins I I) as (Hb & Hm & Hp).
  unfold query, run. rewrite (query_node_exact _ p Hb Hm).
  apply filter_permutation. exact Hp.
Qed.

(** ** The registry after sequences of operations *)

(** C4. After every sequence of insert and erase operations, every node's
    balance factor, the height of its left subtree minus the height of its
    right subtree, is -1, 0 or 1. *)
Theorem balance_factor_after_any_run (ops : list (op TValue)) :
  balanced (root_ (run ops)).
Proof. apply avl_balanced, run_avl. Qed.

(** Erasing one of several intervals on a key. In a registry state that
    meets the data model (a search tree on [start] whose [max_end] fields
    bound their subtrees, with ids that are unique), where the interval of
    [id0] shares its start key with another stored interval, [erase id0]
    removes that interval and nothing else: the stored intervals keep their
    order with only it taken out, its side-index entry is dropped, every
    other stored interval is still returned by the queries at the points it
    holds, and no query returns the erased one. *)
Theorem erase_one_of_shared_key (tr : t TValue) id0 i0 j :
  bst (root_ tr) -> max_end_bounds (root_ tr) ->
  List.NoDup (map id (elements (root_ tr))) ->
  id_to_node_ tr !! id0 = Some i0 ->
  In i0 (elements (root_ tr)) -> id i0 = id0 ->
  In j (elements (root_ tr)) -> start j = start i0 -> id j <> id0 ->
  (exists pre post,
      elements (root_ tr) = pre ++ i0 :: post
      /\ elements (root_ (erase tr id0)) = pre ++ post)
  /\ id_to_node_ (erase tr id0) = delete id0 (id_to_node_ tr)
  /\ (forall x p, In x (elements (root_ tr)) -> id x <> id0 ->
        contains p x = true -> In x (query (erase tr id0) p))
  /\ (forall x p, In x (query (erase tr id0) p) -> id x <> id0).
Proof.
  intros Hb Hm Hnd Hidx Hi0 Hid0 Hj Hsj Hidj.
  destruct (erase_node_shared (root_ tr) (start i0) id0 (id_to_node_ tr) i0 j)
    as (node' & pre & x & post & He & Hb' & Hm' & Hel & Hel' & Hx & Hxs);
    auto.
  assert (x = i0) as ->.
  { apply (nodup_id_eq (elements (root_ tr))); auto; [|congruence].
    rewrite Hel. in_tac. }
  assert (forall y, In y (pre ++ post) -> id y <> id0) as Hrest.
  { intros y Hy. rewrite <- Hid0. apply (nodup_id_middle pre post); [|exact Hy].
    rewrite <- Hel. exact Hnd. }
  unfold erase, query. rewrite Hidx, He. cbn [root_ id_to_node_].
  split_all.
  - exists pre, post. auto.
  - reflexivity.
  - intros y p Hy Hidy Hc.
    apply (Permutation_in _ (Permutation_sym (query_node_exact node' p Hb' Hm'))).
    apply List.filter_In. split; [|exact Hc].
    rewrite Hel'. rewrite Hel in Hy. revert Hy. rewrite !in_app_iff. cbn [In].
    intros [Hy|[<-|Hy]]; auto. congruence.
  - intros y p Hy. apply Hrest. rewrite <- Hel'.
    apply (query_node_sound node' p y (bst_keyed _ Hb') Hy).
Qed.

(** ** Further invariants of every reachable state *)

Lemma avl_heights_exact node : avl node -> heights_exact node.
Proof.
  induction node as [|ivs h m l IHl r IHr]; cbn [avl heights_exact]; [trivial|].
  intros (Hl & Hr & -> & _). split_all; auto.
  cbn [tree_height]. rewrite !avl_tree_height by assumption. reflexivity.
Qed.

(** After every sequence of inserts and erases the cached [height] of every
    node is the height of its subtree. *)
Theorem cached_heights_after_any_run (ops : list (op TValue)) :
  heights_exact (root_ (run ops)).
Proof. apply avl_heights_exact, run_avl. Qed.

(** After every sequence of inserts and erases every node holds at least
    one interval and all intervals of a node start at the key of its front
    interval: [front()] is never taken of an empty vector. *)
Theorem front_defined_after_any_run (ops : list (op TValue)) :
  keyed (root_ (run ops)).
Proof.
  apply (run_invariant (fun tr => keyed (root_ tr))); [exact I|].
  intros tr o. apply step_keyed.
Qed.

(** After every sequence of inserts and erases every node's [max_end] is at
    least the end of every interval stored in its subtree, so [query] never
    prunes a subtree that holds a match. *)
Theorem max_end_bounds_after_any_run (ops : list (op TValue)) :
  max_end_bounds (root_ (run ops)).
Proof.
  apply (run_invariant (fun tr => max_end_bounds (root_ tr))); [exact I|].
  intros tr o. apply step_max_end_bounds.
Qed.

(** After every sequence of inserts and erases, whatever [query] returns is
    stored in the tree and holds the point. *)
Theorem query_returns_stored_holders (ops : list (op TValue)) p :
  Forall (fun x => In x (elements (root_ (run ops))) /\ contains p x = true)
    (query (run ops) p).
Proof.
  apply List.Forall_forall. intros x Hx.
  apply (query_node_sound (root_ (run ops)) p x); [|exact Hx].
  apply (run_invariant (fun tr => keyed (root_ tr))); [exact I|].
  intros tr o. apply step_keyed.
Qed.

Lemma keyed_no_elements node : keyed node -> elements node = [] -> node = Null.
Proof.
  destruct node as [|ivs h m l r]; [reflexivity|].
  intros ((Hne & _) & _) He. cbn in He.
  apply app_eq_nil in He. destruct He as (_ & He).
  apply app_eq_nil in He. destruct He as (He & _). contradiction.
Qed.

(** After every sequence of inserts and erases, [empty()] is true exactly
    when the tree stores no interval. *)
Theorem empty_iff_nothing_stored (ops : list (op TValue)) :
  empty (run ops) = true <-> elements (root_ (run ops)) = [].
Proof.
  assert (keyed (root_ (run ops))) as Hk.
  { apply (run_invariant (fun tr => keyed (root_ tr))); [exact I|].
    intros tr o. apply step_keyed. }
  unfold empty. split.
  - destruct (root_ (run ops)); [reflexivity|discriminate].
  - intros He. rewrite (keyed_no_elements _ Hk He). reflexivity.
Qed.

(** ** What one [insert] does, in any state *)

(** [insert] returns the next id, stores the interval under it beside all
    the intervals stored before (none is lost or repeated, whatever the
    rotations do), records it in the side index and advances the counter. *)
Theorem insert_adds_one (tr : t TValue) i :
  (insert tr i).1 = next_id_ tr
  /\ Permutation (elements (root_ (insert tr i).2))
       (mkInterval (start i) (end_ i) (value i) (next_id_ tr)
        :: elements (root_ tr))
  /\ id_to_node_ (insert tr i).2
     = <[next_id_ tr := mkInterval (start i) (end_ i) (value i) (next_id_ tr)]>
         (id_to_node_ tr)
  /\ next_id_ (insert tr i).2 = ((next_id_ tr + 1) mod size_t_modulus)%N.
Proof.
  cbn [insert fst snd root_ id_to_node_ next_id_]. split_all; try reflexivity.
  apply elements_insert_node.
Qed.

(** On a search tree with bounding [max_end], a query after an insert
    returns what it returned before, and the new interval too when it holds
    the point. *)
Theorem query_after_insert (tr : t TValue) i p :
  bst (root_ tr) -> max_end_bounds (root_ tr) ->
  Permutation (query (insert tr i).2 p)
    ((if contains p (mkInterval (start i) (end_ i) (value i) (next_id_ tr))
      then [mkInterval (start i) (end_ i) (value i) (next_id_ tr)] else [])
     ++ query tr p).
Proof.
  intros Hb Hm. unfold query. cbn [insert snd root_].
  rewrite (query_node_exact _ p (bst_insert_node _ _ Hb)
             (max_end_bounds_insert_node _ _ Hm)).
  rewrite (query_node_exact _ p Hb Hm).
  rewrite (filter_permutation (contains p) _ _ (elements_insert_node _ _)).
  cbn [List.filter].
  destruct (contains p _); reflexivity.
Qed.

(** ** What one [erase] does, in any state *)

Lemma min_value_node_in node x :
  In x (intervals_of (min_value_node node)) -> In x (elements node).
Proof.
  induction node as [|ivs h m l IHl r IHr]; [intros []|].
  cbn [min_value_node elements]. destruct l as [|livs lh lm ll lr].
  - cbn. intros Hx. in_tac.
  - intros Hx. specialize (IHl Hx). in_tac.
Qed.

Lemma remove_id_length ivs id0 ivs' :
  remove_id ivs id0 = Some ivs' -> length ivs = S (length ivs').
Proof.
  intros Hr. destruct (remove_id_some _ _ _ Hr) as (pre & x & post & -> & -> & _).
  rewrite !length_app. cbn. lia.
Qed.

Lemma remove_id_incl ivs id0 ivs' :
  remove_id ivs id0 = Some ivs' -> incl ivs' ivs.
Proof.
  intros Hr. destruct (remove_id_some _ _ _ Hr) as (pre & x & post & -> & -> & _).
  intros y. rewrite !in_app_iff. cbn. tauto.
Qed.

Lemma set_front_short ivs f :
  (1 <? length ivs)%nat = false ->
  length (set_front ivs f) = length ivs /\ incl (set_front ivs f) [f].
Proof.
  intros Hlen. apply Nat.ltb_ge in Hlen.
  destruct ivs as [|x [|y tl]]; cbn in *; [split; [reflexivity|intros ? []]| |lia].
  split; [reflexivity|]. intros y Hy. exact Hy.
Qed.

(** After the private [erase] every stored interval was stored before, and
    the number of stored intervals, copies counted, is the same or one
    less; the side index is left alone or loses the entry of the id. *)
Lemma erase_node_shrinks node key id0 idx :
  incl (elements (erase_node node key id0 idx).1) (elements node)
  /\ (length (elements (erase_node node key id0 idx).1) <= length (elements node)
      <= S (length (elements (erase_node node key id0 idx).1)))%nat
  /\ ((erase_node node key id0 idx).2 = idx
      \/ (erase_node node key id0 idx).2 = delete id0 idx).
Proof.
  revert key idx.
  induction node as [|ivs h m l IHl r IHr]; intros key idx.
  { cbn. split_all; auto. intros x []. }
  cbn [erase_node].
  destruct (key <? front_start ivs)%N; [|destruct (front_start ivs <? key)%N;
    [|destruct (1 <? length ivs)%nat eqn:Hlen]].
  - specialize (IHl key idx).
    destruct (erase_node l key id0 idx) as [l' idx']; cbn [fst snd] in *.
    destruct IHl as (Hin & Hle & Hidx).
    rewrite elements_erase_fixup, elements_refresh. cbn [elements].
    rewrite !length_app. split_all; try lia; [|exact Hidx].
    intros x. rewrite !in_app_iff. specialize (Hin x). tauto.
  - specialize (IHr key idx).
    destruct (erase_node r key id0 idx) as [r' idx']; cbn [fst snd] in *.
    destruct IHr as (Hin & Hle & Hidx).
    rewrite elements_erase_fixup, elements_refresh. cbn [elements].
    rewrite !length_app. split_all; try lia; [|exact Hidx].
    intros x. rewrite !in_app_iff. specialize (Hin x). tauto.
  - destruct (remove_id ivs id0) as [ivs'|] eqn:Hrem; cbn [fst snd];
      rewrite elements_erase_fixup, elements_refresh; cbn [elements].
    + pose proof (remove_id_length _ _ _ Hrem).
      pose proof (remove_id_incl _ _ _ Hrem) as Hin.
      rewrite !length_app. split_all; try lia; [|right; reflexivity].
      intros x. rewrite !in_app_iff. specialize (Hin x). tauto.
    + split_all; try lia; [|left; reflexivity]. intros x Hx. exact Hx.
  - apply Nat.ltb_ge in Hlen.
    destruct l as [|livs lh lm ll lr], r as [|rivs rh rm rl rr]; cbn [fst snd].
    + cbn [elements]. rewrite !length_app. cbn.
      split_all; try lia; [|left; reflexivity]. intros x [].
    + rewrite elements_erase_fixup, elements_refresh.
      cbn [elements app]. rewrite !length_app.
      split_all; try lia; [|left; reflexivity].
      intros x. cbn [elements]. rewrite !in_app_iff. cbn [In]. tauto.
    + rewrite elements_erase_fixup, elements_refresh.
      cbn [elements]. rewrite !length_app. cbn [length].
      split_all; try lia; [|left; reflexivity].
      intros x. cbn [elements]. rewrite !in_app_iff. cbn [In]. tauto.
    + destruct (intervals_of (min_value_node (MkNode rivs rh rm rl rr)))
        as [|f fs] eqn:Hmin.
      * cbn [fst snd]. split_all; try lia; [|left; reflexivity].
        intros x Hx. exact Hx.
      * specialize (IHr (start f) idx).
        destruct (erase_node (MkNode rivs rh rm rl rr) (start f) id0 idx)
          as [r' idx']; cbn [fst snd] in *.
        destruct IHr as (Hin & Hle & Hidx).
        rewrite elements_erase_fixup, elements_refresh.
        destruct (set_front_short ivs f) as (Hsl & Hsi);
          [apply Nat.ltb_ge; exact Hlen|].
        assert (In f (elements (MkNode rivs rh rm rl rr))) as Hf.
        { apply min_value_node_in. rewrite Hmin. left. reflexivity. }
        remember (MkNode rivs rh rm rl rr) as r eqn:Hr.
        remember (MkNode livs lh lm ll lr) as l eqn:Hl.
        cbn [elements]. rewrite !length_app, Hsl.
        split_all; try lia; [|exact Hidx].
        intros x. rewrite !in_app_iff. intros [Hx|[Hx|Hx]]; auto.
        specialize (Hsi x Hx). destruct Hsi as [<-|[]]. auto.
Qed.

(** What one [erase] does to what is stored, in any state and for any id:
    every interval stored afterwards was stored before, and the number of
    stored intervals, copies counted, is the same or one less. Only the
    number is bounded, not which intervals leave: two can leave while a
    second copy of a third is stored
    ([IntervalTreeExamples.erase_drops_two_and_repeats_one]). The side index
    is left alone or loses the entry of the id, and the id counter stays. *)
Theorem erase_only_removes (tr : t TValue) id0 :
  incl (elements (root_ (erase tr id0))) (elements (root_ tr))
  /\ (length (elements (root_ (erase tr id0))) <= length (elements (root_ tr))
      <= S (length (elements (root_ (erase tr id0)))))%nat
  /\ (id_to_node_ (erase tr id0) = id_to_node_ tr
      \/ id_to_node_ (erase tr id0) = delete id0 (id_to_node_ tr))
  /\ next_id_ (erase tr id0) = next_id_ tr.
Proof.
  unfold erase. destruct (id_to_node_ tr !! id0) as [i|].
  - pose proof (erase_node_shrinks (root_ tr) (start i) id0 (id_to_node_ tr))
      as (Hin & Hle & Hidx).
    destruct (erase_node (root_ tr) (start i) id0 (id_to_node_ tr))
      as [root' idx']. cbn [fst snd root_ id_to_node_ next_id_] in *.
    split_all; auto; lia.
  - split_all; auto; try lia. intros x Hx. exact Hx.
Qed.

(** ** Ids that were never issued *)

Lemma insert_issued_below k (tr : t TValue) i :
  (N.of_nat k < size_t_modulus)%N ->
  issued_below k tr -> issued_below (S k) (insert tr i).2.
Proof.
  intros Hk (Hnext & Hlt). rewrite N.mod_small in Hnext by exact Hk.
  unfold issued_below. cbn [insert snd next_id_ id_to_node_]. rewrite Hnext.
  split; [f_equal; lia|].
  intros id0 x Hx. destruct (N.eq_dec (N.of_nat k) id0) as [<-|Hne]; [lia|].
  rewrite lookup_insert_ne in Hx by exact Hne. specialize (Hlt _ _ Hx). lia.
Qed.

Lemma erase_issued_below k (tr : t TValue) id0 :
  issued_below k tr -> issued_below k (erase tr id0).
Proof.
  intros (Hnext & Hlt). unfold erase.
  destruct (id_to_node_ tr !! id0) as [i|]; [|split; assumption].
  pose proof (erase_node_shrinks (root_ tr) (start i) id0 (id_to_node_ tr))
    as (_ & _ & Hidx).
  destruct (erase_node (root_ tr) (start i) id0 (id_to_node_ tr))
    as [root' idx']. cbn [snd] in Hidx.
  split; [exact Hnext|]. cbn [id_to_node_].
  intros id1 x Hx. destruct Hidx as [->| ->]; [exact (Hlt _ _ Hx)|].
  apply lookup_delete_Some in Hx. exact (Hlt _ _ (proj2 Hx)).
Qed.

Lemma run_issued_below (ops : list (op TValue)) k (tr : t TValue) :
  (N.of_nat (k + length (inserted_from (next_id_ tr) ops)) <= size_t_modulus)%N ->
  issued_below k tr ->
  issued_below (k + length (inserted_from (next_id_ tr) ops))
    (fold_left step ops tr).
Proof.
  revert k tr. induction ops as [|o ops IH]; intros k tr Hlen Hinv.
  { cbn. rewrite Nat.add_0_r. exact Hinv. }
  destruct o as [i|id0]; cbn [fold_left step inserted_from length] in *.
  - replace (k + S (length (inserted_from ((next_id_ tr + 1) mod size_t_modulus)%N ops)))%nat
      with (S k + length (inserted_from (next_id_ (insert tr i).2) ops))%nat
      in * by (cbn [insert snd next_id_]; lia).
    apply IH; [exact Hlen|]. apply insert_issued_below; [lia|exact Hinv].
  - pose proof (erase_issued_below k tr id0 Hinv) as Hinv'.
    assert (next_id_ (erase tr id0) = next_id_ tr) as Hn.
    { destruct Hinv as (-> & _), Hinv' as (-> & _). reflexivity. }
    rewrite <- Hn in *. apply IH; assumption.
Qed.

(** Erasing an id that no insert has returned yet leaves the registry as it
    is, after any sequence of inserts and erases (with no more inserts than
    the id counter can count). *)
Theorem erase_unissued_id (ops : list (op TValue)) id0 :
  (N.of_nat (length (inserted_from 0 ops)) <= size_t_modulus)%N ->
  (N.of_nat (length (inserted_from 0 ops)) <= id0)%N ->
  erase (run ops) id0 = run ops.
Proof.
  intros Hlen Hid.
  destruct (run_issued_below ops 0 init) as (_ & Hlt).
  - exact Hlen.
  - split; [reflexivity|]. intros id1 x Hx. cbn [init id_to_node_] in Hx.
    rewrite lookup_empty in Hx. discriminate.
  - cbn [Nat.add next_id_ init] in Hlt. unfold erase, run.
    destruct (id_to_node_ (fold_left step ops init) !! id0) as [x|] eqn:Hx;
      [|reflexivity].
    specialize (Hlt _ _ Hx). lia.
Qed.

(** ** Registries without shared start keys *)

Lemma singletons_update_max_end node :
  singletons node -> singletons (update_max_end node).
Proof. destruct node; cbn; auto. Qed.

Lemma singletons_refresh node : singletons node -> singletons (refresh node).
Proof. destruct node; cbn; auto. Qed.

Lemma singletons_rotate_left node :
  singletons node -> singletons (rotate_left node).
Proof.
  destruct node as [|ivs h m l [|rivs rh rm rl rr]]; cbn; tauto.
Qed.

Lemma singletons_rotate_right node :
  singletons node -> singletons (rotate_right node).
Proof.
  destruct node as [|ivs h m [|livs lh lm ll lr] r]; cbn; tauto.
Qed.

Lemma singletons_erase_fixup node :
  singletons node -> singletons (erase_fixup node).
Proof.
  destruct node as [|ivs h m l r]; [auto|].
  intros Hk. pose proof Hk as (Hs & Hl & Hr).
  unfold erase_fixup. repeat case_if;
    auto using singletons_rotate_left, singletons_rotate_right;
    apply singletons_rotate_left || apply singletons_rotate_right;
    cbn; auto using singletons_rotate_left, singletons_rotate_right.
Qed.

Lemma singletons_insert_fixup key node :
  singletons node -> singletons (insert_fixup key node).
Proof.
  destruct node as [|ivs h m l r]; [auto|].
  intros Hk. pose proof Hk as (Hs & Hl & Hr).
  unfold insert_fixup. repeat case_if;
    auto using singletons_rotate_left, singletons_rotate_right;
    apply singletons_rotate_left || apply singletons_rotate_right;
    cbn; auto using singletons_rotate_left, singletons_rotate_right.
Qed.

Lemma length_one ivs : length ivs = 1%nat -> exists x, ivs = [x].
Proof.
  destruct ivs as [|x [|y tl]]; cbn; try discriminate. eauto.
Qed.

(** An insert under a start key that the tree does not hold makes a node of
    its own. *)
Lemma singletons_insert_node node i :
  singletons node ->
  (forall x, In x (elements node) -> start x <> start i) ->
  singletons (insert_node node i).
Proof.
  induction node as [|ivs h m l IHl r IHr]; intros Hs Hnew.
  { cbn. auto. }
  destruct Hs as (Hlen & Hl & Hr).
  destruct (length_one _ Hlen) as (x & ->).
  cbn [insert_node]. apply singletons_insert_fixup.
  cbn [elements] in Hnew.
  repeat case_if; apply singletons_refresh; cbn [singletons]; split_all; auto.
  - apply IHl; [assumption|]. intros y Hy. apply Hnew. in_tac.
  - apply IHr; [assumption|]. intros y Hy. apply Hnew. in_tac.
  - exfalso. apply (Hnew x); [in_tac|]. cbn [front_start] in *. lia.
Qed.

Lemma filter_all {A} (f : A -> bool) (xs : list A) :
  (forall x, In x xs -> f x = true) -> List.filter f xs = xs.
Proof.
  induction xs as [|x tl IH]; intros Hf; cbn; [reflexivity|].
  rewrite (Hf x) by (left; reflexivity).
  rewrite IH; [reflexivity|]. intros y Hy. apply Hf. right. exact Hy.
Qed.

(** On a search tree of one-interval nodes, [min_value_node] gives the node
    of the first interval in order, and every other key is larger. *)
Lemma min_value_node_head ivs h m l r :
  bst (MkNode ivs h m l r) -> singletons (MkNode ivs h m l r) ->
  exists f rest,
    intervals_of (min_value_node (MkNode ivs h m l r)) = [f]
    /\ elements (MkNode ivs h m l r) = f :: rest
    /\ forall y, In y rest -> (start f < start y)%N.
Proof.
  revert ivs h m r.
  induction l as [|livs lh lm ll IHll lr _]; intros ivs h m r Hb Hs.
  - destruct Hs as (Hlen & _ & _). destruct (length_one _ Hlen) as (x & ->).
    destruct Hb as (_ & _ & Hgt & _).
    exists x, (elements r). cbn. split_all; auto.
  - destruct Hs as (Hlen & Hsl & Hsr). destruct (length_one _ Hlen) as (x & ->).
    destruct Hb as (_ & Hlt & Hgt & Hbl & Hbr).
    destruct (IHll livs lh lm lr Hbl Hsl) as (f & rest & Hmin & Hel & Hrest).
    exists f, (rest ++ [x] ++ elements r).
    change (min_value_node (MkNode [x] h m (MkNode livs lh lm ll lr) r))
      with (min_value_node (MkNode livs lh lm ll lr)).
    split; [exact Hmin|].
    change (elements (MkNode [x] h m (MkNode livs lh lm ll lr) r))
      with (elements (MkNode livs lh lm ll lr) ++ [x] ++ elements r).
    rewrite Hel. split; [reflexivity|].
    assert (start f < start x)%N as Hfx.
    { apply (Hlt f). rewrite Hel. left. reflexivity. }
    intros y Hy. rewrite !in_app_iff in Hy. cbn [In] in Hy.
    destruct Hy as [Hy|[[<-|[]]|Hy]]; auto.
    specialize (Hgt y Hy). cbn [front_start] in Hgt. lia.
Qed.

Lemma filter_other_keys (xs : list (Interval TValue)) key :
  (forall y, In y xs -> start y <> key) ->
  List.filter (fun x => negb (start x =? key)%N) xs = xs.
Proof.
  intros Hne. apply filter_all. intros y Hy.
  destruct (N.eqb_spec (start y) key) as [Heq|_]; [|reflexivity].
  destruct (Hne y Hy Heq).
Qed.

Lemma filter_incl {A} (f : A -> bool) (xs : list A) x :
  In x (List.filter f xs) -> In x xs.
Proof. intros Hx. apply List.filter_In in Hx. tauto. Qed.

(** On a search tree of one-interval nodes the private [erase] is the
    deletion of a key from a search tree: the interval of the key leaves,
    whatever the id, the others stay in their order, the tree stays a
    search tree of one-interval nodes, and the side index is not touched. *)
Lemma erase_node_single node key id0 idx :
  bst node -> singletons node ->
  (erase_node node key id0 idx).2 = idx
  /\ elements (erase_node node key id0 idx).1
     = List.filter (fun x => negb (start x =? key)%N) (elements node)
  /\ bst (erase_node node key id0 idx).1
  /\ singletons (erase_node node key id0 idx).1.
Proof.
  revert key idx.
  induction node as [|ivs h m l IHl r IHr]; intros key idx Hb Hs.
  { cbn. auto. }
  destruct Hs as (Hlen & Hsl & Hsr).
  destruct (length_one _ Hlen) as (x & ->).
  destruct Hb as (Hk & Hlt & Hgt & Hbl & Hbr).
  cbn [front_start] in Hlt, Hgt.
  cbn [erase_node front_start length elements].
  rewrite !List.filter_app.
  destruct (N.ltb_spec key (start x)) as [Hlt1|Hge1];
    [|destruct (N.ltb_spec (start x) key) as [Hlt2|Hge2]].
  - (* the key is in the left subtree *)
    destruct (IHl key idx Hbl Hsl) as (Hidx & Hel & Hbl' & Hsl').
    destruct (erase_node l key id0 idx) as [l' idx']; cbn [fst snd] in *.
    rewrite elements_erase_fixup, elements_refresh. cbn [elements].
    rewrite Hel, (filter_other_keys [x]), (filter_other_keys (elements r)).
    + split_all; auto.
      * apply bst_erase_fixup, bst_refresh. cbn [bst front_start].
        split_all; auto. intros y Hy. rewrite Hel in Hy.
        apply Hlt. exact (filter_incl _ _ _ Hy).
      * apply singletons_erase_fixup, singletons_refresh. cbn. auto.
    + intros y Hy. specialize (Hgt y Hy). lia.
    + intros y [<-|[]]. lia.
  - (* the key is in the right subtree *)
    destruct (IHr key idx Hbr Hsr) as (Hidx & Hel & Hbr' & Hsr').
    destruct (erase_node r key id0 idx) as [r' idx']; cbn [fst snd] in *.
    rewrite elements_erase_fixup, elements_refresh. cbn [elements].
    rewrite Hel, (filter_other_keys [x]), (filter_other_keys (elements l)).
    + split_all; auto.
      * apply bst_erase_fixup, bst_refresh. cbn [bst front_start].
        split_all; auto. intros y Hy. rewrite Hel in Hy.
        apply Hgt. exact (filter_incl _ _ _ Hy).
      * apply singletons_erase_fixup, singletons_refresh. cbn. auto.
    + intros y Hy. specialize (Hlt y Hy). lia.
    + intros y [<-|[]]. lia.
  - (* the node of the key *)
    assert (start x = key) as Hkey by lia.
    rewrite (filter_other_keys (elements l)), (filter_other_keys (elements r)).
    2:{ intros y Hy. specialize (Hgt y Hy). lia. }
    2:{ intros y Hy. specialize (Hlt y Hy). lia. }
    cbn [List.filter]. rewrite Hkey, N.eqb_refl. cbn [negb app Nat.ltb Nat.leb].
    destruct l as [|livs lh lm ll lr], r as [|rivs rh rm rl rr]; cbn [fst snd].
    + cbn. auto.
    + rewrite elements_erase_fixup, elements_refresh.
      split_all; auto.
      * apply bst_erase_fixup, bst_refresh, Hbr.
      * apply singletons_erase_fixup, singletons_refresh, Hsr.
    + rewrite elements_erase_fixup, elements_refresh, app_nil_r.
      split_all; auto.
      * apply bst_erase_fixup, bst_refresh, Hbl.
      * apply singletons_erase_fixup, singletons_refresh, Hsl.
    + destruct (min_value_node_head rivs rh rm rl rr Hbr Hsr)
        as (f & rest & Hmin & Her & Hrest).
      rewrite Hmin.
      destruct (IHr (start f) idx Hbr Hsr) as (Hidx & Hel & Hbr' & Hsr').
      destruct (erase_node (MkNode rivs rh rm rl rr) (start f) id0 idx)
        as [r' idx']; cbn [fst snd] in *.
      rewrite Her in Hel. cbn [List.filter] in Hel.
      rewrite N.eqb_refl in Hel. cbn [negb] in Hel.
      rewrite filter_other_keys in Hel.
      2:{ intros y Hy. specialize (Hrest y Hy). lia. }
      rewrite elements_erase_fixup, elements_refresh. cbn [set_front].
      change (elements (MkNode [f] h m (MkNode livs lh lm ll lr) r'))
        with (elements (MkNode livs lh lm ll lr) ++ [f] ++ elements r').
      rewrite Hel, Her. split_all; auto.
      * apply bst_erase_fixup, bst_refresh.
        assert (key < start f)%N as Hkf.
        { rewrite <- Hkey. apply Hgt. rewrite Her. left. reflexivity. }
        split; [apply same_key_singleton|]. cbn [front_start].
        split_all; auto.
        -- intros y Hy. specialize (Hlt y Hy). lia.
        -- intros y Hy. rewrite Hel in Hy. apply Hrest, Hy.
      * apply singletons_erase_fixup, singletons_refresh.
        split; [reflexivity|]. split; assumption.
Qed.

Lemma nodup_start_eq (xs : list (Interval TValue)) a b :
  List.NoDup (map start xs) -> In a xs -> In b xs -> start a = start b -> a = b.
Proof.
  induction xs as [|x tl IH]; intros Hnd Ha Hb Hst; [destruct Ha|].
  cbn in Hnd. apply List.NoDup_cons_iff in Hnd. destruct Hnd as (Hx & Hnd).
  destruct Ha as [->|Ha], Hb as [->|Hb]; auto.
  - exfalso. apply Hx. rewrite Hst. apply in_map, Hb.
  - exfalso. apply Hx. rewrite <- Hst. apply in_map, Ha.
Qed.

Lemma insert_tracks k hist acc (tr : t TValue) i :
  (N.of_nat k < size_t_modulus)%N ->
  ~ In (start i) (map start hist) ->
  tracks k hist acc tr ->
  tracks (S k)
    (hist ++ [mkInterval (start i) (end_ i) (value i) (next_id_ tr)])
    (acc ++ [mkInterval (start i) (end_ i) (value i) (next_id_ tr)])
    (insert tr i).2.
Proof.
  intros Hk Hnew (Hb & Hm & Hs & Hp & Hinc & Hnext & Hlt & Hidx & Hnd).
  rewrite N.mod_small in Hnext by exact Hk.
  set (i' := mkInterval (start i) (end_ i) (value i) (next_id_ tr)).
  unfold tracks. cbn [insert snd root_ next_id_ id_to_node_]. fold i'.
  split_all.
  - apply bst_insert_node, Hb.
  - apply max_end_bounds_insert_node, Hm.
  - apply singletons_insert_node; [exact Hs|].
    intros x Hx Heq. apply Hnew.
    change (start i') with (start i) in Heq. rewrite <- Heq.
    apply in_map, Hinc. exact (Permutation_in _ Hp Hx).
  - rewrite elements_insert_node, Hp.
    apply Permutation_cons_append.
  - intros x Hx. apply in_app_iff in Hx. apply in_app_iff.
    destruct Hx as [Hx|Hx]; [left; apply Hinc, Hx|right; exact Hx].
  - rewrite Hnext. f_equal. lia.
  - intros x Hx. apply in_app_iff in Hx. destruct Hx as [Hx|[<-|[]]].
    + specialize (Hlt x Hx). lia.
    + cbn [i' id]. lia.
  - intros id0 x. rewrite in_app_iff. cbn [In].
    destruct (N.eq_dec (next_id_ tr) id0) as [<-|Hne].
    + rewrite lookup_insert_eq. split.
      * intros Hx. injection Hx as <-. split; [right; left|]; reflexivity.
      * intros ([Hx|[<-|[]]] & Hid); [|reflexivity].
        specialize (Hlt x Hx). lia.
    + rewrite lookup_insert_ne by exact Hne. rewrite Hidx. split.
      * intros (Hx & Hid). auto.
      * intros ([Hx|[<-|[]]] & Hid); [auto|]. cbn [i' id] in Hid. contradiction.
  - rewrite map_app. cbn [map]. change (start i') with (start i).
    apply (Permutation_NoDup (Permutation_cons_append _ _)).
    apply List.NoDup_cons; assumption.
Qed.

Lemma erase_tracks k hist acc (tr : t TValue) id0 :
  tracks k hist acc tr ->
  tracks k hist (List.filter (fun x => negb (id x =? id0)%N) acc) (erase tr id0).
Proof.
  intros (Hb & Hm & Hs & Hp & Hinc & Hnext & Hlt & Hidx & Hnd).
  unfold erase. destruct (id_to_node_ tr !! id0) as [i|] eqn:Hlook.
  - apply Hidx in Hlook. destruct Hlook as (Hi & Hid).
    destruct (erase_node_single (root_ tr) (start i) id0 (id_to_node_ tr) Hb Hs)
      as (Hsame & Hel & Hb' & Hs').
    pose proof (max_end_bounds_erase_node (root_ tr) (start i) id0
                  (id_to_node_ tr) Hm) as Hm'.
    destruct (erase_node (root_ tr) (start i) id0 (id_to_node_ tr))
      as [root' idx']. cbn [fst snd] in *. subst idx'.
    unfold tracks. cbn [root_ next_id_ id_to_node_]. split_all; auto.
    + rewrite Hel.
      rewrite (filter_permutation _ _ _ Hp).
      erewrite filter_same; [reflexivity|].
      intros x Hx. f_equal. specialize (Hinc x Hx).
      destruct (N.eqb_spec (start x) (start i)) as [Hst|Hst],
               (N.eqb_spec (id x) id0) as [Hxid|Hxid]; try reflexivity.
      * exfalso. apply Hxid.
        rewrite (nodup_start_eq hist x i Hnd Hinc Hi Hst). exact Hid.
      * exfalso. apply Hst.
        assert (id_to_node_ tr !! id0 = Some x) as H1 by (apply Hidx; auto).
        assert (id_to_node_ tr !! id0 = Some i) as H2 by (apply Hidx; auto).
        rewrite H1 in H2. injection H2 as ->. reflexivity.
    + intros x Hx. apply Hinc. exact (filter_incl _ _ _ Hx).
  - rewrite filter_all.
    + unfold tracks. split_all; auto.
    + intros x Hx. destruct (N.eqb_spec (id x) id0) as [Hxid|]; [|reflexivity].
      exfalso.
      assert (id_to_node_ tr !! id0 = Some x) as H1 by (apply Hidx; auto).
      rewrite H1 in Hlook. discriminate.
Qed.

Lemma run_tracks (ops : list (op TValue)) k hist acc (tr : t TValue) :
  tracks k hist acc tr ->
  List.NoDup (map start (hist ++ inserted_from (next_id_ tr) ops)) ->
  (N.of_nat (k + length (inserted_from (next_id_ tr) ops)) <= size_t_modulus)%N ->
  exists k' hist',
    tracks k' hist' (live_from (next_id_ tr) acc ops) (fold_left step ops tr).
Proof.
  revert k hist acc tr.
  induction ops as [|o ops IH]; intros k hist acc tr Ht Hnd Hlen.
  { exists k, hist. exact Ht. }
  destruct o as [i|id0]; cbn [fold_left step inserted_from live_from length] in *.
  - set (i' := mkInterval (start i) (end_ i) (value i) (next_id_ tr)) in *.
    apply (IH (S k) (hist ++ [i']) (acc ++ [i']) (insert tr i).2).
    + apply insert_tracks; [lia| |exact Ht].
      rewrite map_app in Hnd. cbn [map] in Hnd.
      apply List.NoDup_remove_2 in Hnd. intros Hin. apply Hnd.
      apply in_app_iff. left. exact Hin.
    + cbn [insert snd next_id_]. rewrite <- List.app_assoc. exact Hnd.
    + cbn [insert snd next_id_]. lia.
  - pose proof (erase_tracks k hist acc tr id0 Ht) as Ht'.
    assert (next_id_ (erase tr id0) = next_id_ tr) as Hn.
    { destruct Ht as (_ & _ & _ & _ & _ & -> & _).
      destruct Ht' as (_ & _ & _ & _ & _ & -> & _). reflexivity. }
    rewrite <- Hn in *. apply (IH k hist); assumption.
Qed.

(** When no two inserts of a sequence use the same start key (and there are
    no more inserts than the id counter can count), the registry is exact
    after any mix of inserts and erases: the tree stores the intervals that
    were inserted and not erased since, [query] returns those of them that
    hold the point, each once, and [empty()] tells whether there is none. *)
Theorem registry_exact_without_shared_starts (ops : list (op TValue)) p :
  List.NoDup (map start (inserted_from 0 ops)) ->
  (N.of_nat (length (inserted_from 0 ops)) <= size_t_modulus)%N ->
  Permutation (elements (root_ (run ops))) (live ops)
  /\ Permutation (query (run ops) p) (List.filter (contains p) (live ops))
  /\ empty (run ops) = match live ops with [] => true | _ :: _ => false end.
Proof.
  intros Hnd Hlen.
  destruct (run_tracks ops 0 [] [] init) as (k' & hist' & Ht).
  - unfold tracks. cbn. split_all; auto; try tauto.
    + intros x [].
    + intros id0 i. rewrite lookup_empty. split; [discriminate|tauto].
    + constructor.
  - exact Hnd.
  - exact Hlen.
  - destruct Ht as (Hb & Hm & Hs & Hp & _).
    change (live_from (next_id_ init) [] ops) with (live ops) in Hp.
    change (fold_left step ops init) with (run ops) in *.
    split_all.
    + exact Hp.
    + unfold query. rewrite (query_node_exact _ p Hb Hm).
      apply filter_permutation, Hp.
    + unfold empty. destruct (root_ (run ops)) as [|ivs h m l r].
      * apply Permutation_nil in Hp. rewrite Hp. reflexivity.
      * destruct (live ops) as [|y ys]; [|reflexivity].
        apply Permutation_sym, Permutation_nil in Hp.
        destruct Hs as (Hl1 & _). destruct (length_one _ Hl1) as (x & ->).
        cbn in Hp. apply app_eq_nil in Hp. destruct Hp as (_ & Hp).
        discriminate.
Qed.

(** On a search tree of one-interval nodes [erase] goes by the start key
    that the side index records for the id, and by nothing else: the stored
    interval of that key leaves the tree whatever its own id is, the others
    stay in their order, and the side index keeps all its entries, that of
    the erased id too. *)
Theorem erase_goes_by_start_key (tr : t TValue) id0 i :
  bst (root_ tr) -> singletons (root_ tr) ->
  id_to_node_ tr !! id0 = Some i ->
  elements (root_ (erase tr id0))
    = List.filter (fun x => negb (start x =? start i)%N) (elements (root_ tr))
  /\ id_to_node_ (erase tr id0) = id_to_node_ tr.
Proof.
  intros Hb Hs Hlook. unfold erase. rewrite Hlook.
  destruct (erase_node_single (root_ tr) (start i) id0 (id_to_node_ tr) Hb Hs)
    as (Hidx & Hel & _).
  destruct (erase_node (root_ tr) (start i) id0 (id_to_node_ tr))
    as [root' idx']. cbn [fst snd root_ id_to_node_] in *. auto.
Qed.

(** ** The height of a reachable tree *)

Lemma tree_height_nonneg node : 0 <= tree_height node.
Proof. induction node; cbn [tree_height]; lia. Qed.

Lemma balanced_node_count node :
  balanced node -> 2 ^ (tree_height node / 2) <= node_count node + 1.
Proof.
  induction node as [|ivs h m l IHl r IHr]; intros Hb.
  { vm_compute. discriminate. }
  destruct Hb as (Hbal & Hbl & Hbr).
  specialize (IHl Hbl). specialize (IHr Hbr).
  pose proof (tree_height_nonneg l) as Hl0.
  pose proof (tree_height_nonneg r) as Hr0.
  cbn [tree_height node_count].
  remember (tree_height l) as hl eqn:Ehl. remember (tree_height r) as hr eqn:Ehr.
  remember (1 + Z.max hl hr) as hh eqn:Ehh.
  destruct (Z.eq_dec hh 1) as [H1|H1].
  { rewrite H1. change (2 ^ (1 / 2)) with 1.
    assert (0 < 2 ^ (hl / 2)) by (apply Z.pow_pos_nonneg; [lia|apply Z.div_pos; lia]).
    assert (0 < 2 ^ (hr / 2)) by (apply Z.pow_pos_nonneg; [lia|apply Z.div_pos; lia]).
    lia. }
  assert (2 <= hh) as H2 by lia.
  assert (hh / 2 = (hh - 2) / 2 + 1) as Hdiv.
  { replace hh with ((hh - 2) + 1 * 2) at 1 by lia.
    rewrite Z.div_add by lia. reflexivity. }
  assert (0 <= (hh - 2) / 2) as Hq by (apply Z.div_pos; lia).
  rewrite Hdiv, Z.pow_add_r by lia. change (2 ^ 1) with 2.
  assert (2 ^ ((hh - 2) / 2) <= 2 ^ (hl / 2)) as Hpl.
  { apply Z.pow_le_mono_r; [lia|]. apply Z.div_le_mono; lia. }
  assert (2 ^ ((hh - 2) / 2) <= 2 ^ (hr / 2)) as Hpr.
  { apply Z.pow_le_mono_r; [lia|]. apply Z.div_le_mono; lia. }
  lia.
Qed.

(** After every sequence of inserts and erases the height of the tree is
    logarithmic in the number of its nodes: a tree of height [h] has at
    least [2 ^ (h / 2) - 1] nodes. *)
Theorem height_logarithmic_after_any_run (ops : list (op TValue)) :
  2 ^ (tree_height (root_ (run ops)) / 2) <= node_count (root_ (run ops)) + 1.
Proof. apply balanced_node_count, avl_balanced, run_avl. Qed.

(** ** Ids and the side index after inserts *)

Lemma insert_ids_in_order k (tr : t TValue) i :
  (N.of_nat k < size_t_modulus)%N ->
  ids_in_order k tr -> ids_in_order (S k) (insert tr i).2.
Proof.
  intros Hk (Hnext & Hlt & Hnd & Hidx).
  rewrite N.mod_small in Hnext by exact Hk.
  unfold ids_in_order. cbn [insert snd root_ next_id_ id_to_node_].
  rewrite Hnext. split_all.
  - f_equal. lia.
  - intros x Hx. apply in_elements_insert_node in Hx.
    destruct Hx as [->|Hx]; [cbn; lia|]. specialize (Hlt x Hx). lia.
  - apply (Permutation_NoDup
             (Permutation_sym (Permutation_map id (elements_insert_node _ _)))).
    cbn [map id]. apply List.NoDup_cons; [|exact Hnd].
    intros Hin. apply in_map_iff in Hin. destruct Hin as (x & Hid & Hx).
    specialize (Hlt x Hx). lia.
  - intros x Hx. apply in_elements_insert_node in Hx.
    destruct Hx as [->|Hx]; [apply lookup_insert_eq|].
    rewrite lookup_insert_ne; [apply Hidx, Hx|].
    specialize (Hlt x Hx). lia.
Qed.

Lemma inserts_ids_in_order (ops : list (op TValue)) k (tr : t TValue) :
  forallb is_insert ops = true ->
  (N.of_nat (k + length ops) <= size_t_modulus)%N ->
  ids_in_order k tr -> ids_in_order (k + length ops) (fold_left step ops tr).
Proof.
  revert k tr. induction ops as [|o ops IH]; intros k tr Hins Hlen Hinv.
  { cbn. rewrite Nat.add_0_r. exact Hinv. }
  destruct o as [i|id0]; [|discriminate]. cbn in Hins.
  cbn [fold_left step length] in *.
  replace (k + S (length ops))%nat with (S k + length ops)%nat in * by lia.
  apply IH; [exact Hins|exact Hlen|].
  apply insert_ids_in_order; [lia|exact Hinv].
Qed.

(** On a registry built by inserts alone, no more of them than the id
    counter can tell apart: erasing one of two intervals that share a start
    key removes that interval and nothing else. *)
Corollary erase_shared_key_after_inserts (ops : list (op TValue)) i0 j :
  forallb is_insert ops = true ->
  (N.of_nat (length ops) <= size_t_modulus)%N ->
  In i0 (elements (root_ (run ops))) -> In j (elements (root_ (run ops))) ->
  start j = start i0 -> id j <> id i0 ->
  (exists pre post,
      elements (root_ (run ops)) = pre ++ i0 :: post
      /\ elements (root_ (erase (run ops) (id i0))) = pre ++ post)
  /\ id_to_node_ (erase (run ops) (id i0)) = delete (id i0) (id_to_node_ (run ops))
  /\ (forall x p, In x (elements (root_ (run ops))) -> id x <> id i0 ->
        contains p x = true -> In x (query (erase (run ops) (id i0)) p))
  /\ (forall x p, In x (query (erase (run ops) (id i0)) p) -> id x <> id i0).
Proof.
  intros Hins Hlen Hi0 Hj Hs Hid.
  destruct (inserts_well_formed ops init Hins I I) as (Hb & Hm & _).
  destruct (inserts_ids_in_order ops 0 init Hins Hlen) as (_ & _ & Hnd & Hidx).
  { unfold ids_in_order. cbn. split_all.
    - reflexivity.
    - intros x [].
    - constructor.
    - intros x []. }
  apply (erase_one_of_shared_key (run ops) (id i0) i0 j); auto.
Qed.

End Facts.

End IntervalTreeFacts.

(** * Properties of the access-interception engine *)

Module DatamonFacts.

Import IntervalTree Datamon IntervalTreeFacts.

Section Facts.

Context {OS : Type} `{WinAPI OS}.

Lemma protect_memory_loop_done fuel (os : OS) start end' size f :
  (end' <= start)%N ->
  protect_memory_loop fuel os start end' size f = Some (Returned tt, os).
Proof.
  intros Hle. destruct fuel; cbn;
    destruct (N.ltb_spec start end'); solve [lia | reflexivity].
Qed.

(** Guarding one byte takes one stride when the region that holds the byte
    is not empty and ends inside the address space. *)
Lemma protect_memory_one_byte fuel (os : OS) address f mbi :
  VirtualQuery os address = Some mbi ->
  (1 <= RegionSize mbi)%N ->
  (address + RegionSize mbi < uintptr_modulus)%N ->
  protect_memory (S fuel) os address 1 f =
    if (Protect mbi =? f (Protect mbi))%N then Some (Returned tt, os)
    else
      match VirtualProtect os (BaseAddress mbi) (N.min 1 (RegionSize mbi))
              (f (Protect mbi)) with
      | None => Some (Threw Failed_to_protect_memory, os)
      | Some os' => Some (Returned tt, os')
      end.
Proof.
  intros Hq Hsize Hend. unfold protect_memory.
  rewrite (N.mod_small (address + 1)) by lia.
  cbn [protect_memory_loop].
  destruct (N.ltb_spec address (address + 1)) as [_|]; [|lia].
  rewrite Hq. rewrite (N.mod_small (address + RegionSize mbi)) by lia.
  destruct (Protect mbi =? f (Protect mbi))%N.
  - apply protect_memory_loop_done. lia.
  - destruct (VirtualProtect os (BaseAddress mbi) (N.min 1 (RegionSize mbi))
                (f (Protect mbi))) as [os'|]; [|reflexivity].
    apply protect_memory_loop_done. lia.
Qed.

(** The single-step branch of [handler]. *)
Lemma handler_single_step fuel (w : World) th er mbi os' :
  empty (interval_tree w) = false ->
  last_data_address th <> 0%N ->
  ExceptionCode er = STATUS_SINGLE_STEP ->
  VirtualQuery (os w) (last_data_address th) = Some mbi ->
  (1 <= RegionSize mbi)%N ->
  (last_data_address th + RegionSize mbi < uintptr_modulus)%N ->
  reguarded (os w) mbi os' ->
  handler (S fuel) w th er =
    Some (Returned EXCEPTION_CONTINUE_EXECUTION,
          mkWorld (veh_refcount w) (veh_handle w) (interval_tree w) os' (calls w),
          mkThread 0%N (ContextRecord th)).
Proof.
  intros Hne Harmed Hcode Hq Hsize Hend Hre. unfold handler.
  rewrite Hne, Hcode. cbn [N.eqb STATUS_SINGLE_STEP STATUS_GUARD_PAGE_VIOLATION].
  change (0x80000004 =? 0x80000001)%N with false.
  change (0x80000004 =? 0x80000004)%N with true.
  destruct (N.eqb_spec (last_data_address th) 0) as [|_]; [contradiction|].
  cbn [negb andb].
  rewrite (protect_memory_one_byte fuel (os w) _ set_guard mbi Hq Hsize Hend).
  destruct Hre as [(Hsame & ->)|(Hdiff & Hp)].
  - rewrite <- Hsame, N.eqb_refl. reflexivity.
  - destruct (N.eqb_spec (Protect mbi) (set_guard (Protect mbi))); [contradiction|].
    rewrite Hp. reflexivity.
Qed.

(** ** Memory protection *)

(** [protect | PAGE_GUARD] and [protect & ~PAGE_GUARD] change bit 8 of the
    protection and no other bit. *)
Theorem guard_changes_one_bit (protect n : N) :
  N.testbit (set_guard protect) n = (n =? 8)%N || N.testbit protect n
  /\ N.testbit (clear_guard protect) n = N.testbit protect n && negb (n =? 8)%N.
Proof.
  unfold set_guard, clear_guard, PAGE_GUARD.
  rewrite N.lor_spec, N.ldiff_spec.
  change 0x100%N with (2 ^ 8)%N. rewrite N.pow2_bits_eqb.
  rewrite (N.eqb_sym 8 n). split; [apply orb_comm|reflexivity].
Qed.

(** A range that is empty, or whose end wraps around to or below its
    start, is left unguarded: [protect_memory] returns at once, without a
    query or a change. *)
Theorem protect_memory_empty_range fuel (os : OS) address size f :
  ((address + size) mod uintptr_modulus <= address)%N ->
  protect_memory fuel os address size f = Some (Returned tt, os).
Proof. intros Hle. apply protect_memory_loop_done, Hle. Qed.

Lemma protect_memory_loop_returns (P : OS -> Prop) f size end' :
  (forall os a mbi, P os -> VirtualQuery os a = Some mbi ->
     (1 <= RegionSize mbi)%N /\ (a + RegionSize mbi < uintptr_modulus)%N) ->
  (forall os base sz p os', P os -> VirtualProtect os base sz p = Some os' -> P os') ->
  forall fuel os start,
    P os -> (end' - start <= N.of_nat fuel)%N ->
    exists r, protect_memory_loop fuel os start end' size f = Some r.
Proof.
  intros Hq Hp. induction fuel as [|fuel IH]; intros os start HP Hfuel.
  - cbn. destruct (N.ltb_spec start end'); [lia|eauto].
  - cbn [protect_memory_loop]. destruct (N.ltb_spec start end'); [|eauto].
    destruct (VirtualQuery os start) as [mbi|] eqn:Hmbi; [|eauto].
    destruct (Hq os start mbi HP Hmbi) as (Hsz & Hend).
    rewrite (N.mod_small (start + RegionSize mbi)) by exact Hend.
    destruct (Protect mbi =? f (Protect mbi))%N.
    + apply IH; [exact HP|lia].
    + destruct (VirtualProtect os (BaseAddress mbi)
                  (N.min size (RegionSize mbi)) (f (Protect mbi)))
        as [os'|] eqn:Hprot; [|eauto].
      apply IH; [exact (Hp _ _ _ _ _ HP Hprot)|lia].
Qed.

(** On a system whose regions are never empty and end inside the address
    space, [protect_memory] takes at most one stride per byte of the
    range: with that much fuel it returns or throws. *)
Theorem protect_memory_returns (P : OS -> Prop) (os : OS) address size f :
  (forall os a mbi, P os -> VirtualQuery os a = Some mbi ->
     (1 <= RegionSize mbi)%N /\ (a + RegionSize mbi < uintptr_modulus)%N) ->
  (forall os base sz p os', P os -> VirtualProtect os base sz p = Some os' -> P os') ->
  P os ->
  exists r, protect_memory (N.to_nat size) os address size f = Some r.
Proof.
  intros Hq Hp HP. unfold protect_memory.
  apply (protect_memory_loop_returns P f size _ Hq Hp); [exact HP|].
  rewrite N2Nat.id.
  destruct (N.lt_ge_cases (address + size) uintptr_modulus) as [Hs|Hs].
  - rewrite N.mod_small by exact Hs. lia.
  - pose proof (N.Div0.mod_le (address + size) uintptr_modulus).
    assert ((address + size) mod uintptr_modulus < uintptr_modulus)%N
      by (apply N.mod_lt; discriminate).
    lia.
Qed.

(** ** The session constructor *)

(** C2, as the code has it. When the guarding step of a session creation
    fails, the error is propagated to the caller and the registry insert is
    not rolled back: the registry and its side index still hold the interval
    the failed creation inserted, and the session count stays incremented. *)
Theorem failed_guarding_keeps_registry_entry fuel (w : World)
    address size interceptor e os2 :
  (veh_refcount w <> 0%N \/ (AddVectoredExceptionHandler (os w)).1 <> 0%N) ->
  protect_memory fuel
    (if (veh_refcount w =? 0)%N then (AddVectoredExceptionHandler (os w)).2
     else os w)
    address size set_guard = Some (Threw e, os2) ->
  let entry :=
    mkInterval address ((address + size) mod uintptr_modulus)%N interceptor
      (next_id_ (interval_tree w)) in
  exists w',
    ctor fuel w address size interceptor = Some (Threw e, w')
    /\ veh_refcount w' = ((veh_refcount w + 1) mod size_t_modulus)%N
    /\ In entry (elements (root_ (interval_tree w')))
    /\ id_to_node_ (interval_tree w') !! next_id_ (interval_tree w) = Some entry
    /\ empty (interval_tree w') = false.
Proof.
  intros Hinst Hprot entry. unfold ctor.
  pose proof (insert_stores (interval_tree w)
                (mkInterval address ((address + size) mod uintptr_modulus)%N
                   interceptor 0%N)) as (_ & Hin & Hidx & Hne).
  cbn [start end_ value] in Hin, Hidx. fold entry in Hin, Hidx.
  destruct (insert (interval_tree w) _) as [entry_id tree']. cbn [snd] in *.
  destruct (N.eqb_spec (veh_refcount w) 0) as [Hz|Hnz].
  - destruct (AddVectoredExceptionHandler (os w)) as [handle os1].
    cbn [fst snd] in *.
    destruct (N.eqb_spec handle 0) as [->|Hh]; [tauto|]. cbn [andb].
    rewrite Hprot. eexists. split; [reflexivity|]. cbn. auto.
  - cbn [andb]. rewrite Hprot. eexists. split; [reflexivity|]. cbn. auto.
Qed.

(** ** The exception handler *)

(** C9. A fault that is neither a guard violation nor a single step of a
    thread with a recorded data address is declined: the handler returns
    [EXCEPTION_CONTINUE_SEARCH] and leaves the registry, the protections,
    the calls made and the thread's state as they were. *)
Theorem unrecognised_fault_is_declined fuel (w : World) th er :
  ExceptionCode er <> STATUS_GUARD_PAGE_VIOLATION ->
  ~ (last_data_address th <> 0%N /\ ExceptionCode er = STATUS_SINGLE_STEP) ->
  handler fuel w th er = Some (Returned EXCEPTION_CONTINUE_SEARCH, w, th).
Proof.
  intros Hg Hs. unfold handler.
  destruct (empty (interval_tree w)); [reflexivity|].
  destruct (N.eqb_spec (ExceptionCode er) STATUS_GUARD_PAGE_VIOLATION);
    [contradiction|].
  destruct (N.eqb_spec (last_data_address th) 0) as [|Hl]; [reflexivity|].
  destruct (N.eqb_spec (ExceptionCode er) STATUS_SINGLE_STEP) as [Hc|];
    [|reflexivity].
  exfalso. apply Hs. auto.
Qed.

(** C8, as the code has it. For a thread with a recorded (non-zero) data
    address and the next single-step trap delivered to it: when the registry
    is empty the trap is declined, and the world and the thread, the
    recorded address with it, stay as they were; while the registry is not
    empty and the region of the recorded address can be queried and
    protected, the trap is consumed: the guard is put back on that region,
    the recorded address is cleared, and execution continues; nothing else
    changes. *)
Theorem armed_single_step_is_consumed fuel (w : World) th er :
  last_data_address th <> 0%N ->
  ExceptionCode er = STATUS_SINGLE_STEP ->
  (empty (interval_tree w) = true ->
   handler fuel w th er = Some (Returned EXCEPTION_CONTINUE_SEARCH, w, th))
  /\ (forall mbi os',
        empty (interval_tree w) = false ->
        VirtualQuery (os w) (last_data_address th) = Some mbi ->
        (1 <= RegionSize mbi)%N ->
        (last_data_address th + RegionSize mbi < uintptr_modulus)%N ->
        reguarded (os w) mbi os' ->
        exists w' th',
          handler (S fuel) w th er =
            Some (Returned EXCEPTION_CONTINUE_EXECUTION, w', th')
          /\ os w' = os'
          /\ last_data_address th' = 0%N
          /\ ContextRecord th' = ContextRecord th
          /\ interval_tree w' = interval_tree w
          /\ calls w' = calls w
          /\ veh_refcount w' = veh_refcount w /\ veh_handle w' = veh_handle w).
Proof.
  intros Harmed Hcode. split.
  - intros He. unfold handler. rewrite He. reflexivity.
  - intros mbi os' Hne Hq Hsize Hend Hre.
    rewrite (handler_single_step fuel w th er mbi os') by assumption.
    do 2 eexists. split; [reflexivity|]. cbn. auto 10.
Qed.

(** C10, as the code has it. With a registry that is not empty, a guard
    violation at a data address that no stored interval holds is consumed:
    no interceptor is called, the single-step flag is set and the address is
    recorded; and when that address is not zero and its region can be
    queried and protected, the single-step trap that follows puts the guard
    back on the region and clears the recorded address. *)
Theorem unwatched_guard_fault_is_consumed fuel (w : World) th er :
  empty (interval_tree w) = false ->
  keyed (root_ (interval_tree w)) ->
  ExceptionCode er = STATUS_GUARD_PAGE_VIOLATION ->
  (forall i, In i (elements (root_ (interval_tree w))) ->
     contains (ExceptionInformation1 er) i = false) ->
  let th1 :=
    mkThread (ExceptionInformation1 er)
      (mkContext (XIP (ContextRecord th))
         (N.lor (EFlags (ContextRecord th)) 0x100)) in
  handler fuel w th er = Some (Returned EXCEPTION_CONTINUE_EXECUTION, w, th1)
  /\ forall er2 mbi os',
       ExceptionInformation1 er <> 0%N ->
       ExceptionCode er2 = STATUS_SINGLE_STEP ->
       VirtualQuery (os w) (ExceptionInformation1 er) = Some mbi ->
       (1 <= RegionSize mbi)%N ->
       (ExceptionInformation1 er + RegionSize mbi < uintptr_modulus)%N ->
       reguarded (os w) mbi os' ->
       handler (S fuel) w th1 er2 =
         Some (Returned EXCEPTION_CONTINUE_EXECUTION,
               mkWorld (veh_refcount w) (veh_handle w) (interval_tree w) os'
                 (calls w),
               mkThread 0%N (ContextRecord th1)).
Proof.
  intros Hne Hk Hcode Hout th1. split.
  - unfold handler. rewrite Hne, Hcode, N.eqb_refl.
    assert (query (interval_tree w) (ExceptionInformation1 er) = []) as ->.
    { unfold query.
      destruct (query_node (root_ (interval_tree w)) (ExceptionInformation1 er))
        as [|x xs] eqn:Hq; [reflexivity|].
      destruct (query_node_sound _ (ExceptionInformation1 er) x Hk) as (Hin & Hc).
      { rewrite Hq. left. reflexivity. }
      rewrite (Hout x Hin) in Hc. discriminate. }
    cbn [call_interceptors map]. rewrite app_nil_r.
    destruct w; reflexivity.
  - intros er2 mbi os' Hnz Hcode2 Hq Hsize Hend Hre.
    apply (handler_single_step fuel w th1 er2 mbi os'); assumption.
Qed.

(** ** What the handler leaves alone, and whom it calls *)

(** Whatever the fault and however the handler ends, it leaves the
    registry, the session count and the handler token as they were, and
    only adds to the calls made. *)
Theorem handler_keeps_registry fuel (w : World) th er o w' th' :
  handler fuel w th er = Some (o, w', th') ->
  interval_tree w' = interval_tree w
  /\ veh_refcount w' = veh_refcount w
  /\ veh_handle w' = veh_handle w
  /\ exists new, calls w' = calls w ++ new.
Proof.
  unfold handler. intros Hh.
  destruct (empty (interval_tree w)).
  { injection Hh as <- <- <-. split_all; auto. exists []. symmetry. apply app_nil_r. }
  destruct (ExceptionCode er =? STATUS_GUARD_PAGE_VIOLATION)%N.
  { injection Hh as <- <- <-. cbn. split_all; auto. eexists. reflexivity. }
  destruct (negb (last_data_address th =? 0)%N
            && (ExceptionCode er =? STATUS_SINGLE_STEP)%N).
  - destruct (protect_memory fuel (os w) (last_data_address th) 1 set_guard)
      as [[[u|e] os']|]; [| |discriminate];
      injection Hh as <- <- <-; cbn; split_all; auto;
      exists []; symmetry; apply app_nil_r.
  - injection Hh as <- <- <-. split_all; auto. exists []. symmetry. apply app_nil_r.
Qed.

(** On a guard violation, with a registry that is a search tree with
    bounding [max_end], the handler calls the interceptor of every stored
    interval that holds the faulting data address, once for each, with the
    faulting instruction's address, the read flag and the data address, and
    calls no other; it sets the single-step flag, records the address and
    lets the execution continue. *)
Theorem guard_fault_calls_the_watchers fuel (w : World) th er :
  empty (interval_tree w) = false ->
  ExceptionCode er = STATUS_GUARD_PAGE_VIOLATION ->
  bst (root_ (interval_tree w)) -> max_end_bounds (root_ (interval_tree w)) ->
  exists new,
    handler fuel w th er =
      Some (Returned EXCEPTION_CONTINUE_EXECUTION,
            mkWorld (veh_refcount w) (veh_handle w) (interval_tree w) (os w)
              (calls w ++ new),
            mkThread (ExceptionInformation1 er)
              (mkContext (XIP (ContextRecord th))
                 (N.lor (EFlags (ContextRecord th)) 0x100)))
    /\ Permutation new
         (map (fun i => mkCall (value i) (XIP (ContextRecord th))
                          (ExceptionInformation0 er =? 0)%N
                          (ExceptionInformation1 er))
            (List.filter (contains (ExceptionInformation1 er))
               (elements (root_ (interval_tree w))))).
Proof.
  intros Hne Hcode Hb Hm. unfold handler. rewrite Hne, Hcode, N.eqb_refl.
  eexists. split; [reflexivity|].
  unfold call_interceptors, query.
  apply Permutation_map, query_node_exact; assumption.
Qed.

(** The two traps of one access. With a registry that is not empty, a guard
    violation at a non-zero data address whose region can be queried and
    protected, followed by the single-step trap of the same thread: the
    interceptors found by the query are called once, in the order of the
    query, the guard is back on the region, and the thread awaits no trap. *)
Theorem access_takes_two_traps fuel (w : World) th er er2 mbi os' :
  empty (interval_tree w) = false ->
  ExceptionCode er = STATUS_GUARD_PAGE_VIOLATION ->
  ExceptionCode er2 = STATUS_SINGLE_STEP ->
  ExceptionInformation1 er <> 0%N ->
  VirtualQuery (os w) (ExceptionInformation1 er) = Some mbi ->
  (1 <= RegionSize mbi)%N ->
  (ExceptionInformation1 er + RegionSize mbi < uintptr_modulus)%N ->
  reguarded (os w) mbi os' ->
  exists w1 th1 w2 th2,
    handler fuel w th er = Some (Returned EXCEPTION_CONTINUE_EXECUTION, w1, th1)
    /\ handler (S fuel) w1 th1 er2
       = Some (Returned EXCEPTION_CONTINUE_EXECUTION, w2, th2)
    /\ calls w2
       = calls w
         ++ map (fun i => mkCall (value i) (XIP (ContextRecord th))
                            (ExceptionInformation0 er =? 0)%N
                            (ExceptionInformation1 er))
              (query (interval_tree w) (ExceptionInformation1 er))
    /\ os w2 = os'
    /\ last_data_address th2 = 0%N
    /\ interval_tree w2 = interval_tree w.
Proof.
  intros Hne Hcode Hcode2 Hnz Hq Hsize Hend Hre.
  unfold handler at 1. rewrite Hne, Hcode, N.eqb_refl.
  do 2 eexists.
  eexists (mkWorld _ _ _ _ _), (mkThread _ _).
  split; [reflexivity|]. split.
  - apply (handler_single_step fuel _ _ er2 mbi os'); cbn; assumption.
  - cbn. auto.
Qed.

(** ** The life of a session *)

(** When the first session cannot install the handler, the constructor
    throws before it counts or registers anything: the registry and the
    session count are as before, and no protection is asked for. *)
Theorem ctor_without_handler fuel (w : World) address size interceptor :
  veh_refcount w = 0%N ->
  (AddVectoredExceptionHandler (os w)).1 = 0%N ->
  ctor fuel w address size interceptor =
    Some (Threw Failed_to_create_vectored_exception_handler,
          mkWorld 0%N 0%N (interval_tree w)
            (AddVectoredExceptionHandler (os w)).2 (calls w)).
Proof.
  intros Href Hadd. unfold ctor. rewrite Href. cbn [N.eqb].
  destruct (AddVectoredExceptionHandler (os w)) as [handle os1].
  cbn [fst snd] in *. subst handle. reflexivity.
Qed.

(** What a constructor that returns has done. *)
Lemma ctor_returned fuel (w : World) address size interceptor s w1 :
  ctor fuel w address size interceptor = Some (Returned s, w1) ->
  s = mkSession address size interceptor (next_id_ (interval_tree w))
  /\ interval_tree w1 =
       (insert (interval_tree w)
          (mkInterval address ((address + size) mod uintptr_modulus)%N
             interceptor 0%N)).2
  /\ veh_refcount w1 = ((veh_refcount w + 1) mod size_t_modulus)%N
  /\ calls w1 = calls w
  /\ (veh_refcount w <> 0%N -> veh_handle w1 = veh_handle w)
  /\ (veh_refcount w = 0%N -> veh_handle w1 <> 0%N).
Proof.
  unfold ctor. intros Hc.
  destruct (N.eqb_spec (veh_refcount w) 0) as [Hz|Hnz].
  - destruct (AddVectoredExceptionHandler (os w)) as [handle os1].
    destruct (N.eqb_spec handle 0) as [Hh|Hh]; [discriminate|].
    cbn [andb insert] in Hc.
    destruct (protect_memory fuel os1 address size set_guard)
      as [[[u|e] os2]|]; [|discriminate|discriminate].
    injection Hc as <- <-. cbn. split_all; auto; intros; contradiction.
  - cbn [andb insert] in Hc.
    destruct (protect_memory fuel (os w) address size set_guard)
      as [[[u|e] os2]|]; [|discriminate|discriminate].
    injection Hc as <- <-. cbn. split_all; auto; intros; contradiction.
Qed.

(** A session that was created on a registry in order is called: a guard
    violation at any data address from the session's address to its address
    plus its size (the range does not wrap around) is consumed, and the
    session's interceptor is among the calls made, with the faulting
    instruction's address, the read flag and the data address. *)
Theorem created_session_is_called fuel fuel' (w : World) address size
    interceptor s w1 th er :
  bst (root_ (interval_tree w)) -> max_end_bounds (root_ (interval_tree w)) ->
  ctor fuel w address size interceptor = Some (Returned s, w1) ->
  (address + size < uintptr_modulus)%N ->
  ExceptionCode er = STATUS_GUARD_PAGE_VIOLATION ->
  (address <= ExceptionInformation1 er <= address + size)%N ->
  exists w2 th2,
    handler fuel' w1 th er
      = Some (Returned EXCEPTION_CONTINUE_EXECUTION, w2, th2)
    /\ In (mkCall interceptor (XIP (ContextRecord th))
             (ExceptionInformation0 er =? 0)%N (ExceptionInformation1 er))
          (calls w2)
    /\ last_data_address th2 = ExceptionInformation1 er.
Proof.
  intros Hb Hm Hc Hwrap Hcode Hin.
  destruct (ctor_returned _ _ _ _ _ _ _ Hc) as (_ & Htree & _).
  set (entry := mkInterval address ((address + size) mod uintptr_modulus)%N
                  interceptor 0%N) in *.
  destruct (insert_stores (interval_tree w) entry) as (_ & Hst & _ & Hne).
  rewrite <- Htree in Hst, Hne.
  unfold handler. rewrite Hne, Hcode, N.eqb_refl.
  do 2 eexists. split; [reflexivity|]. split; [|reflexivity].
  cbn [calls]. apply in_app_iff. right. unfold call_interceptors.
  set (i' := mkInterval (start entry) (end_ entry) (value entry)
               (next_id_ (interval_tree w))) in *.
  change interceptor with (value i').
  apply (in_map (fun i => mkCall (value i) (XIP (ContextRecord th))
                            (ExceptionInformation0 er =? 0)%N
                            (ExceptionInformation1 er))).
  unfold query.
  assert (bst (root_ (interval_tree w1))) as Hb1.
  { rewrite Htree. cbn [insert snd root_]. apply bst_insert_node, Hb. }
  assert (max_end_bounds (root_ (interval_tree w1))) as Hm1.
  { rewrite Htree. cbn [insert snd root_].
    apply max_end_bounds_insert_node, Hm. }
  apply (Permutation_in _
           (Permutation_sym (query_node_exact _ (ExceptionInformation1 er) Hb1 Hm1))).
  apply List.filter_In. split; [exact Hst|].
  unfold contains. cbn [i' entry start end_].
  rewrite N.mod_small by exact Hwrap.
  apply andb_true_iff. split; apply N.leb_le; lia.
Qed.

(** The first session's whole life: created on an empty registry with no
    session counted, then destroyed, it leaves the registry empty, no
    session counted and the handler token null. *)
Theorem first_session_round_trip fuel fuel' (w : World) address size
    interceptor s w1 w2 :
  empty (interval_tree w) = true -> veh_refcount w = 0%N ->
  ctor fuel w address size interceptor = Some (Returned s, w1) ->
  dtor fuel' w1 s = Some (Destroyed w2) ->
  empty (interval_tree w2) = true
  /\ veh_refcount w2 = 0%N /\ veh_handle w2 = 0%N
  /\ calls w2 = calls w.
Proof.
  intros He Href Hc Hd.
  destruct (ctor_returned _ _ _ _ _ _ _ Hc)
    as (-> & Htree & Hcount & Hcalls & _ & Hh).
  specialize (Hh Href). rewrite Href in Hcount.
  change ((0 + 1) mod size_t_modulus)%N with 1%N in Hcount.
  unfold dtor in Hd. cbn [address_ size_ interceptor_entry_id_] in Hd.
  destruct (protect_memory fuel' (os w1) address size clear_guard)
    as [[[u|e] os1]|]; [|discriminate|discriminate].
  rewrite Hcount in Hd.
  change ((1 + size_t_modulus - 1) mod size_t_modulus =? 0)%N with true in Hd.
  change ((1 + size_t_modulus - 1) mod size_t_modulus)%N with 0%N in Hd.
  assert (empty (erase (interval_tree w1) (next_id_ (interval_tree w))) = true)
    as Hempty.
  { rewrite Htree. unfold empty in He.
    destruct (interval_tree w) as [root next idx]. cbn [root_ next_id_] in *.
    destruct root as [|ivs h m l r]; [|discriminate].
    unfold erase. cbn [insert snd id_to_node_ root_ start end_ value].
    rewrite lookup_insert_eq. cbn [start insert_node new_node erase_node front_start].
    rewrite N.ltb_irrefl. reflexivity. }
  destruct (N.eqb_spec (veh_handle w1) 0) as [|_]; [contradiction|].
  cbn [negb andb] in Hd.
  destruct (RemoveVectoredExceptionHandler os1 (veh_handle w1)) as [ok os2].
  injection Hd as <-. cbn. auto.
Qed.

End Facts.

End DatamonFacts.

(** * The registry on concrete runs *)

Module IntervalTreeExamples.

Import IntervalTree Datamon Scenarios IntervalTreeFacts.

(** The scenario of the comment in [query]: the three intervals sit at the
    root and its two children, and all three are returned at 35. *)
Example dual_descent_shape :
  root_ (run dual_descent) =
    MkNode [stored 25 35 0] 2 45
      (MkNode [stored 15 45 1] 1 45 Null Null)
      (MkNode [stored 30 40 2] 1 40 Null Null).
Proof. vm_compute. reflexivity. Qed.

Example dual_descent_query :
  query (run dual_descent) 35 = [stored 25 35 0; stored 15 45 1; stored 30 40 2].
Proof. vm_compute. reflexivity. Qed.

(** C1, where the code departs from it. After the root of
    [shared_successor] is erased, the query at 30 returns the interval of
    id 2 twice; after all four ids are erased it still returns it. *)
Theorem query_after_erase_repeats_interval :
  query (run (shared_successor ++ [Erase 0])) 30
    = [stored 30 35 2; stored 30 35 2; stored 30 40 3]
  /\ query (run (shared_successor ++ [Erase 0; Erase 1; Erase 2; Erase 3])) 30
    = [stored 30 35 2].
Proof. split; vm_compute; reflexivity. Qed.

(** C3, where the code departs from it. The third insert of [growing_keys]
    rotates the tree to the left; the demoted node, now the left child and
    holding only [1,1], keeps a [max_end] of 100. *)
Theorem max_end_stale_after_rotation :
  root_ (run growing_keys) =
    MkNode [stored 2 2 1] 2 100
      (MkNode [stored 1 1 0] 1 100 Null Null)
      (MkNode [stored 3 100 2] 1 100 Null Null)
  /\ true_max_end (MkNode [stored 1 1 0] 1 100 Null Null) = 1%N
  /\ max_end_exact (root_ (run growing_keys)) = false.
Proof. split_all; vm_compute; reflexivity. Qed.

(** C5, where the code departs from it. Erasing the root of
    [shared_successor] copies the front interval of the successor node into
    the root and leaves the successor node as it was: the interval of id 2
    is stored in two nodes. *)
Theorem successor_front_stored_twice :
  root_ (run (shared_successor ++ [Erase 0])) =
    MkNode [stored 30 35 2] 2 40
      (MkNode [stored 10 15 1] 1 15 Null Null)
      (MkNode [stored 30 35 2; stored 30 40 3] 1 40 Null Null).
Proof. vm_compute. reflexivity. Qed.

(** C6, where the code departs from it. One insert and the erase of its id
    empty the tree and leave the entry in the side index; on
    [shared_successor] the erase of all four ids does not even empty the
    tree. *)
Theorem erase_all_leaves_entries :
  empty (run [Insert (iv 1 2); Erase 0]) = true
  /\ id_to_node_ (run [Insert (iv 1 2); Erase 0]) !! 0%N = Some (stored 1 2 0)
  /\ empty (run (shared_successor ++ [Erase 0; Erase 1; Erase 2; Erase 3]))
     = false.
Proof. split_all; vm_compute; reflexivity. Qed.

(** C7, where the code departs from it. After the root of
    [shared_successor] and then its left child are erased, the intervals of
    ids 2 and 3 share the key 30 and the root holds a second copy of the
    first. Erasing id 3 then splices out the root: the interval of id 3
    stays in the tree and is still returned by queries. *)
Theorem erase_on_shared_key_misses_its_interval :
  root_ (run (shared_successor ++ [Erase 0; Erase 1])) =
    MkNode [stored 30 35 2] 2 40 Null
      (MkNode [stored 30 35 2; stored 30 40 3] 1 40 Null Null)
  /\ root_ (run (shared_successor ++ [Erase 0; Erase 1; Erase 3])) =
    MkNode [stored 30 35 2; stored 30 40 3] 1 40 Null Null
  /\ query (run (shared_successor ++ [Erase 0; Erase 1; Erase 3])) 40
     = [stored 30 40 3].
Proof. split_all; vm_compute; reflexivity. Qed.

(** One erase can take two intervals away and store a third twice: with
    ids 1 to 4 stored, the erase of id 4 reaches the root, which holds id 2
    alone between two children; the root takes the front interval (id 3) of
    its successor node, and the erase that follows in the successor node
    goes by id 4. Ids 2 and 4 are gone and id 3 is stored twice. *)
Example erase_drops_two_and_repeats_one :
  map id (elements (root_
    (run (shared_successor ++ [Insert (iv 30 45); Erase 0; Erase 2]))))
    = [1; 2; 3; 4]%N
  /\ elements (root_
       (run (shared_successor ++ [Insert (iv 30 45); Erase 0; Erase 2; Erase 4])))
     = [stored 10 15 1; stored 30 40 3; stored 30 40 3].
Proof. split; vm_compute; reflexivity. Qed.

Lemma erase_one_of_shared_key_witness :
  elements (root_ (run shared_key)) = [stored 30 35 0; stored 30 40 1]
  /\ (exists pre post,
        elements (root_ (run shared_key)) = pre ++ stored 30 35 0 :: post
        /\ elements (root_ (erase (run shared_key) 0)) = pre ++ post)
  /\ id_to_node_ (erase (run shared_key) 0) = delete 0%N (id_to_node_ (run shared_key))
  /\ (forall x p, In x (elements (root_ (run shared_key))) -> id x <> 0%N ->
        contains p x = true -> In x (query (erase (run shared_key) 0) p))
  /\ (forall x p, In x (query (erase (run shared_key) 0) p) -> id x <> 0%N).
Proof.
  split; [reflexivity|].
  apply (erase_one_of_shared_key (run shared_key) 0 (stored 30 35 0)
           (stored 30 40 1)).
  - vm_compute. split_all; try discriminate; try tauto.
    intros i Hi. concrete_in; reflexivity.
  - vm_compute. split_all; try tauto.
    intros i Hi. concrete_in; discriminate.
  - vm_compute. repeat constructor; cbn; intuition discriminate.
  - reflexivity.
  - vm_compute. tauto.
  - reflexivity.
  - vm_compute. tauto.
  - reflexivity.
  - discriminate.
Defined.

Lemma query_after_inserts_witness :
  Permutation (query (run dual_descent) 35)
    (List.filter (contains 35) (inserted_from 0 dual_descent)).
Proof. apply (query_after_inserts dual_descent 35). reflexivity. Defined.

Lemma registry_exact_without_shared_starts_witness :
  Permutation (elements (root_ (run mixed_ops))) (live mixed_ops)
  /\ Permutation (query (run mixed_ops) 12)
       (List.filter (contains 12) (live mixed_ops))
  /\ empty (run mixed_ops) = match live mixed_ops with [] => true | _ :: _ => false end.
Proof.
  apply (registry_exact_without_shared_starts mixed_ops 12).
  - vm_compute. repeat constructor; cbn; intuition discriminate.
  - vm_compute. discriminate.
Defined.

Lemma erase_shared_key_after_inserts_witness :
  (exists pre post,
      elements (root_ (run shared_key)) = pre ++ stored 30 40 1 :: post
      /\ elements (root_ (erase (run shared_key) 1)) = pre ++ post)
  /\ id_to_node_ (erase (run shared_key) 1) = delete 1%N (id_to_node_ (run shared_key))
  /\ (forall x p, In x (elements (root_ (run shared_key))) -> id x <> 1%N ->
        contains p x = true -> In x (query (erase (run shared_key) 1) p))
  /\ (forall x p, In x (query (erase (run shared_key) 1) p) -> id x <> 1%N).
Proof.
  apply (erase_shared_key_after_inserts shared_key (stored 30 40 1) (stored 30 35 0)).
  - reflexivity.
  - vm_compute. discriminate.
  - vm_compute. tauto.
  - vm_compute. tauto.
  - reflexivity.
  - discriminate.
Defined.

Lemma erase_unissued_id_witness :
  erase (run mixed_ops) 9 = run mixed_ops.
Proof.
  apply (erase_unissued_id mixed_ops 9).
  - vm_compute. discriminate.
  - vm_compute. discriminate.
Defined.

Lemma query_after_insert_witness :
  Permutation (query (insert (run dual_descent) (iv 33 50)).2 35)
    ([stored 33 50 3] ++ query (run dual_descent) 35).
Proof.
  apply (query_after_insert (run dual_descent) (iv 33 50) 35).
  - vm_compute. split_all; try discriminate; try tauto;
      intros i Hi; concrete_in; reflexivity.
  - vm_compute. split_all; try tauto;
      intros i Hi; concrete_in; discriminate.
Defined.

Lemma erase_goes_by_start_key_witness :
  elements (root_ (erase (run stale_id) 0))
    = List.filter (fun x => negb (start x =? start (stored 1 2 0))%N)
        (elements (root_ (run stale_id)))
  /\ id_to_node_ (erase (run stale_id) 0) = id_to_node_ (run stale_id).
Proof.
  apply (erase_goes_by_start_key (run stale_id) 0 (stored 1 2 0)).
  - vm_compute. split_all; try discriminate; try tauto;
      intros i Hi; concrete_in; reflexivity.
  - vm_compute. tauto.
  - reflexivity.
Defined.

End IntervalTreeExamples.

(** * The engine on concrete faults *)

Module DatamonExamples.

Import IntervalTree Datamon Scenarios IntervalTreeFacts DatamonFacts.

(** [watching] is what creating a session on a fresh system gives. *)
Example ctor_watching :
  ctor 1 (fresh one_page) 0x5000 16 7%N = Some (Returned session0, watching).
Proof. vm_compute. reflexivity. Qed.

(** C2 as stated fails: creating a session on the unmapped address
    [0x9000] throws, and the registry keeps the interval. *)
Lemma failed_create_is_not_rolled_back :
  exists w',
    ctor 1 (fresh one_page) 0x9000 16 7%N = Some (Threw Failed_to_query_memory, w')
    /\ empty (interval_tree w') = false
    /\ query (interval_tree w') 0x9000 = [stored 0x9000 0x9010 0]
    /\ id_to_node_ (interval_tree w') !! 0%N = Some (stored 0x9000 0x9010 0)
    /\ veh_refcount w' = 1%N.
Proof. eexists. split_all; vm_compute; reflexivity. Qed.

Lemma failed_guarding_keeps_registry_entry_witness :
  exists w',
    ctor 1 (fresh one_page) 0x9000 16 7%N = Some (Threw Failed_to_query_memory, w')
    /\ veh_refcount w' = 1%N
    /\ In (stored 0x9000 0x9010 0) (elements (root_ (interval_tree w')))
    /\ id_to_node_ (interval_tree w') !! 0%N = Some (stored 0x9000 0x9010 0)
    /\ empty (interval_tree w') = false.
Proof.
  apply (failed_guarding_keeps_registry_entry 1 (fresh one_page) 0x9000 16 7%N
           Failed_to_query_memory one_page).
  - right. vm_compute. discriminate.
  - vm_compute. reflexivity.
Defined.

Lemma unrecognised_fault_is_declined_witness :
  handler 1 watching armed access_violation
    = Some (Returned EXCEPTION_CONTINUE_SEARCH, watching, armed).
Proof.
  apply (unrecognised_fault_is_declined 1 watching armed access_violation).
  - vm_compute. discriminate.
  - vm_compute. intros (_ & Hc). discriminate Hc.
Defined.

(** C8 as stated fails: a session is created, a write at [0x5004] faults
    and arms the thread, the session is destroyed, and the trap of the
    armed thread is declined with the address still recorded. And with a
    session watching, the trap of a thread whose recorded address lies in a
    region that cannot be queried leaves the handler by an exception, the
    address still recorded. *)
Lemma armed_trap_declined_once_registry_is_empty :
  (exists w2 th1 w3,
     handler 1 (guard_consumed watching 0x5004) idle (guard_fault_on_write 0x5004)
       = Some (Returned EXCEPTION_CONTINUE_EXECUTION, w2, th1)
     /\ last_data_address th1 = 0x5004%N
     /\ dtor 1 w2 session0 = Some (Destroyed w3)
     /\ handler 1 w3 th1 single_step
        = Some (Returned EXCEPTION_CONTINUE_SEARCH, w3, th1))
  /\ handler 1 watching armed_unmapped single_step
     = Some (Threw Failed_to_query_memory, watching, armed_unmapped).
Proof.
  split; [do 3 eexists; split_all; vm_compute; reflexivity|].
  vm_compute. reflexivity.
Qed.

Lemma armed_single_step_is_consumed_witness :
  handler 1 (mkWorld 0 0 (erase (interval_tree watching) 0) one_page []) armed
      single_step
    = Some (Returned EXCEPTION_CONTINUE_SEARCH,
            mkWorld 0 0 (erase (interval_tree watching) 0) one_page [], armed)
  /\ exists w' th',
       handler 1 (guard_consumed watching 0x5004) armed single_step
         = Some (Returned EXCEPTION_CONTINUE_EXECUTION, w', th')
       /\ os w' = os watching
       /\ last_data_address th' = 0%N
       /\ ContextRecord th' = ContextRecord armed
       /\ interval_tree w' = interval_tree watching
       /\ calls w' = []
       /\ veh_refcount w' = 1%N /\ veh_handle w' = 1%N.
Proof.
  split.
  - refine (proj1 (armed_single_step_is_consumed 1
                     (mkWorld 0 0 (erase (interval_tree watching) 0) one_page [])
                     armed single_step _ _) _).
    + vm_compute. discriminate.
    + reflexivity.
    + vm_compute. reflexivity.
  - refine (proj2 (armed_single_step_is_consumed 0
                     (guard_consumed watching 0x5004) armed single_step _ _)
                  (mkMBI 0x5000 4096 PAGE_READWRITE) (os watching) _ _ _ _ _).
    + vm_compute. discriminate.
    + reflexivity.
    + reflexivity.
    + reflexivity.
    + vm_compute. discriminate.
    + vm_compute. reflexivity.
    + right. split; [vm_compute; discriminate|vm_compute; reflexivity].
Defined.

(** C10 as stated fails: with a session watching, a guard violation raised
    with data address 0 is consumed and records address 0, which is how the
    handler writes that no trap is awaited; the trap that follows is
    declined and no guard is put back. And after a guard violation at an
    address whose region cannot be queried, the trap that follows leaves
    the handler by an exception. *)
Lemma guard_fault_at_zero_is_not_followed_up :
  (exists th1,
     handler 1 watching idle (guard_fault_on_write 0)
       = Some (Returned EXCEPTION_CONTINUE_EXECUTION, watching, th1)
     /\ last_data_address th1 = 0%N
     /\ handler 1 watching th1 single_step
        = Some (Returned EXCEPTION_CONTINUE_SEARCH, watching, th1))
  /\ (exists th1,
        handler 1 watching idle (guard_fault_on_write 0x9000)
          = Some (Returned EXCEPTION_CONTINUE_EXECUTION, watching, th1)
        /\ handler 1 watching th1 single_step
           = Some (Threw Failed_to_query_memory, watching, th1)).
Proof. split; eexists; split_all; vm_compute; reflexivity. Qed.

Lemma unwatched_guard_fault_is_consumed_witness :
  let w := guard_consumed watching 0x5800 in
  let th1 := mkThread 0x5800%N (mkContext 0x401000%N 0x302%N) in
  handler 0 w idle (guard_fault_on_write 0x5800)
    = Some (Returned EXCEPTION_CONTINUE_EXECUTION, w, th1)
  /\ handler 1 w th1 single_step
     = Some (Returned EXCEPTION_CONTINUE_EXECUTION, watching, mkThread 0%N (ContextRecord th1)).
Proof.
  intros w th1.
  destruct (unwatched_guard_fault_is_consumed 0 w idle (guard_fault_on_write 0x5800))
    as (Hfirst & Hnext).
  - reflexivity.
  - vm_compute. split_all; try discriminate; try tauto.
    intros i Hi. concrete_in; reflexivity.
  - reflexivity.
  - intros i Hi. vm_compute in Hi. concrete_in; reflexivity.
  - split; [exact Hfirst|].
    apply (Hnext single_step (mkMBI 0x5000 4096 PAGE_READWRITE) (os watching)).
    + vm_compute. discriminate.
    + reflexivity.
    + reflexivity.
    + vm_compute. discriminate.
    + vm_compute. reflexivity.
    + right. split; [vm_compute; discriminate|vm_compute; reflexivity].
Defined.

Lemma protect_memory_empty_range_witness :
  protect_memory 0 one_page 0xFFFFFFFFFFFFFFF0 16 set_guard
    = Some (Returned tt, one_page).
Proof.
  apply (protect_memory_empty_range 0 one_page 0xFFFFFFFFFFFFFFF0 16 set_guard).
  vm_compute. discriminate.
Defined.

Lemma protect_memory_returns_witness :
  exists r, protect_memory (N.to_nat 16) one_page 0x5000 16 set_guard = Some r.
Proof.
  apply (protect_memory_returns low_pages one_page 0x5000 16 set_guard).
  - intros os a mbi Hlow Hq. cbn in Hq.
    destruct (protection os !! page_of a) as [p|] eqn:Hp; [|discriminate].
    injection Hq as <-. cbn [RegionSize]. specialize (Hlow _ _ Hp).
    unfold page_of in Hlow.
    pose proof (N.mul_succ_div_gt a 4096 ltac:(discriminate)) as Hgt.
    change uintptr_modulus with 18446744073709551616%N.
    change (2 ^ 40)%N with 1099511627776%N in Hlow. lia.
  - intros os base sz p os' Hlow Hp. cbn in Hp.
    destruct (protection os !! page_of base) as [q|] eqn:Hq; [|discriminate].
    injection Hp as <-. intros pg r Hr. cbn [protection] in Hr.
    destruct (N.eq_dec (page_of base) pg) as [<-|Hne].
    + exact (Hlow _ _ Hq).
    + rewrite lookup_insert_ne in Hr by exact Hne. exact (Hlow _ _ Hr).
  - intros pg p Hp. cbn [one_page protection] in Hp.
    apply lookup_singleton_Some in Hp. destruct Hp as (<- & _).
    vm_compute. reflexivity.
Defined.

Lemma handler_keeps_registry_witness :
  interval_tree watching = interval_tree watching
  /\ veh_refcount watching = veh_refcount watching
  /\ veh_handle watching = veh_handle watching
  /\ exists new,
       calls (mkWorld 1 1 (interval_tree watching) (os watching)
                [mkCall 7%N 0x401000 false 0x5004])
       = calls watching ++ new.
Proof.
  apply (handler_keeps_registry 0 watching idle (guard_fault_on_write 0x5004)
           (Returned EXCEPTION_CONTINUE_EXECUTION)
           (mkWorld 1 1 (interval_tree watching) (os watching)
              [mkCall 7%N 0x401000 false 0x5004])
           (mkThread 0x5004 (mkContext 0x401000 0x302))).
  vm_compute. reflexivity.
Defined.

Lemma guard_fault_calls_the_watchers_witness :
  exists new,
    handler 0 watching idle (guard_fault_on_read 0x5008) =
      Some (Returned EXCEPTION_CONTINUE_EXECUTION,
            mkWorld 1 1 (interval_tree watching) (os watching) ([] ++ new),
            mkThread 0x5008 (mkContext 0x401000 (N.lor 0x202 0x100)))
    /\ Permutation new
         (map (fun i => mkCall (value i) 0x401000 true 0x5008)
            (List.filter (contains 0x5008)
               (elements (root_ (interval_tree watching))))).
Proof.
  apply (guard_fault_calls_the_watchers 0 watching idle (guard_fault_on_read 0x5008)).
  - reflexivity.
  - reflexivity.
  - vm_compute. split_all; try discriminate; try tauto;
      intros i Hi; concrete_in; reflexivity.
  - vm_compute. split_all; try tauto;
      intros i Hi; concrete_in; discriminate.
Defined.

Lemma ctor_without_handler_witness :
  ctor 1 (mkWorld 0 0 init (mkNoHandlers one_page) []) 0x5000 16 7%N =
    Some (Threw Failed_to_create_vectored_exception_handler,
          mkWorld 0 0 init (mkNoHandlers one_page) []).
Proof.
  exact (ctor_without_handler 1 (mkWorld 0 0 init (mkNoHandlers one_page) [])
           0x5000 16 7%N eq_refl eq_refl).
Defined.

Lemma created_session_is_called_witness :
  exists w2 th2,
    handler 0 watching idle (guard_fault_on_write 0x5004)
      = Some (Returned EXCEPTION_CONTINUE_EXECUTION, w2, th2)
    /\ In (mkCall 7%N 0x401000 false 0x5004) (calls w2)
    /\ last_data_address th2 = 0x5004%N.
Proof.
  apply (created_session_is_called 1 0 (fresh one_page) 0x5000 16 7%N
           session0 watching idle (guard_fault_on_write 0x5004)).
  - exact I.
  - exact I.
  - vm_compute. reflexivity.
  - vm_compute. reflexivity.
  - reflexivity.
  - vm_compute. split; discriminate.
Defined.

Lemma first_session_round_trip_witness :
  empty (interval_tree
           (mkWorld 0 0 (erase (interval_tree watching) 0) one_page [])) = true
  /\ veh_refcount (mkWorld 0 0 (erase (interval_tree watching) 0) one_page []) = 0%N
  /\ veh_handle (mkWorld 0 0 (erase (interval_tree watching) 0) one_page []) = 0%N
  /\ calls (mkWorld 0 0 (erase (interval_tree watching) 0) one_page []) = [].
Proof.
  apply (first_session_round_trip 1 1 (fresh one_page) 0x5000 16 7%N
           session0 watching
           (mkWorld 0 0 (erase (interval_tree watching) 0) one_page [])).
  - reflexivity.
  - reflexivity.
  - vm_compute. reflexivity.
  - vm_compute. reflexivity.
Defined.

Lemma access_takes_two_traps_witness :
  exists w1 th1 w2 th2,
    handler 0 (guard_consumed watching 0x5004) idle (guard_fault_on_write 0x5004)
      = Some (Returned EXCEPTION_CONTINUE_EXECUTION, w1, th1)
    /\ handler 1 w1 th1 single_step
       = Some (Returned EXCEPTION_CONTINUE_EXECUTION, w2, th2)
    /\ calls w2
       = [] ++ map (fun i => mkCall (value i) 0x401000 false 0x5004)
                 (query (interval_tree watching) 0x5004)
    /\ os w2 = os watching
    /\ last_data_address th2 = 0%N
    /\ interval_tree w2 = interval_tree watching.
Proof.
  apply (access_takes_two_traps 0 (guard_consumed watching 0x5004) idle
           (guard_fault_on_write 0x5004) single_step
           (mkMBI 0x5000 4096 PAGE_READWRITE) (os watching)).
  - reflexivity.
  - reflexivity.
  - reflexivity.
  - vm_compute. discriminate.
  - reflexivity.
  - vm_compute. discriminate.
  - vm_compute. reflexivity.
  - right. split; [vm_compute; discriminate|vm_compute; reflexivity].
Defined.

End DatamonExamples.
